(** * A shallow embedding of package [sh] (src/sh/cmd.go) of mage.

    The operating system is the boundary of the model: a [World] gives the
    ambient environment ([os.LookupEnv], [os.Environ]), the file system as seen
    by [filepath.Glob], and what a started child process does.  Everything the
    package itself computes (variable expansion, glob expansion, the
    classification of the result of [exec.Cmd.Run], the messages of the
    returned errors, the in-place update of the argument slice) is written
    out as in the source. *)

From Stdlib Require Import Ascii ZArith.
From stdpp Require Import base list strings gmap pretty.

Local Open Scope stdpp_scope.
Set Warnings "-register-all".

(* ------------------------------------------------------------------ *)
(** ** Go error values *)

(** The status word of a finished child ([syscall.WaitStatus]): it exited
    with a code, or it was terminated by a signal (named as Go prints it). *)
Inductive WaitStatus :=
| WExited (code : Z)
| WSignaled (signal : string).

(** Dynamic shapes of the [error] values the package sees or builds. *)
Inductive goerr :=
| ErrNil
  (** [*exec.ExitError]: the process ran; [Sys()] is its [WaitStatus]. *)
| ExitError (ws : WaitStatus)
  (** the value returned by [mg.Fatalf(code, ...)] *)
| FatalErr (code : Z) (msg : string)
  (** any other error: its [Error()] text, its [ExitStatus() int] method if
      its type has one, and what [errors.Unwrap] returns for it. *)
| OtherErr (msg : string) (status : option Z) (wrapped : option goerr).

Definition is_nil (e : goerr) : bool :=
  match e with ErrNil => true | _ => false end.

(** [os.ProcessState.String], the [Error()] of an [*exec.ExitError]. *)
Definition ws_String (ws : WaitStatus) : string :=
  match ws with
  | WExited c => "exit status " +:+ pretty c
  | WSignaled s => "signal: " +:+ s
  end.

(** [syscall.WaitStatus.ExitStatus]: -1 when the process did not exit. *)
Definition ws_ExitStatus (ws : WaitStatus) : Z :=
  match ws with WExited c => c | WSignaled _ => -1 end.

(** [exec.ExitError.Exited] *)
Definition ws_Exited (ws : WaitStatus) : bool :=
  match ws with WExited _ => true | WSignaled _ => false end.

(** [os.ProcessState.Success] *)
Definition ws_Success (ws : WaitStatus) : bool :=
  match ws with WExited c => Z.eqb c 0 | WSignaled _ => false end.

(** [err.Error()] *)
Definition Error (e : goerr) : string :=
  match e with
  | ErrNil => "<nil>"
  | ExitError ws => ws_String ws
  | FatalErr _ m => m
  | OtherErr m _ _ => m
  end.

(** [errors.Unwrap] *)
Definition Unwrap (e : goerr) : option goerr :=
  match e with OtherErr _ _ w => w | _ => None end.

(** [err.(exitStatus)]: does the dynamic type have [ExitStatus() int]?
    [*exec.ExitError] has not (only its [Sys()] value has). *)
Definition as_exitStatus (e : goerr) : option Z :=
  match e with
  | FatalErr c _ => Some c
  | OtherErr _ s _ => s
  | _ => None
  end.

(** Modelled from the spec: [mg.Fatalf] (package mg is not under src/),
    "a structured exit code N failure carrying that code" with a message;
    it is an error whose [ExitStatus()] is [code]. *)
Definition mg_Fatalf (code : Z) (msg : string) : goerr := FatalErr code msg.

(** [fmt.Errorf] with a [%v] verb only: a fresh error with the formatted
    text, no exit status and nothing to unwrap. *)
Definition fmt_Errorf (msg : string) : goerr := OtherErr msg None None.

(** [CmdRan] (cmd.go:184) *)
Definition CmdRan (err : goerr) : bool :=
  match err with
  | ErrNil => true
  | ExitError ee => ws_Exited ee
  | _ => false
  end.

(** [ExitStatus] (cmd.go:202) *)
Definition ExitStatus (err : goerr) : Z :=
  match err with
  | ErrNil => 0%Z
  | _ =>
    match as_exitStatus err with
    | Some c => c
    | None =>
      match err with
      | ExitError ws => ws_ExitStatus ws
      | _ => 1%Z
      end
    end
  end.

(* ------------------------------------------------------------------ *)
(** ** [os.Expand] (Go standard library, as called by [Exec]) *)

(** [isShellSpecialVar] *)
Definition isShellSpecialVar (c : ascii) : bool :=
  existsb (Ascii.eqb c) (String.list_ascii_of_string "*#$@!?-0123456789").

(** [isAlphaNum]: [_], digits and ASCII letters. *)
Definition isAlphaNum (c : ascii) : bool :=
  let n := nat_of_ascii c in
  Ascii.eqb c "_"%char
  || (48 <=? n) && (n <=? 57)
  || (97 <=? n) && (n <=? 122)
  || (65 <=? n) && (n <=? 90).

(** [s[i:]] *)
Fixpoint str_drop (i : nat) (s : string) : string :=
  match i, s with
  | O, _ => s
  | S _, EmptyString => EmptyString
  | S i', String _ r => str_drop i' r
  end.

(** index of the first ['}'] *)
Fixpoint index_close (s : string) : option nat :=
  match s with
  | EmptyString => None
  | String c r =>
    if Ascii.eqb c "}"%char then Some 0 else option_map S (index_close r)
  end.

(** the scan [for i = 0; i < len(s) && isAlphaNum(s[i]); i++] *)
Fixpoint alnum_prefix (s : string) : string :=
  match s with
  | EmptyString => EmptyString
  | String c r => if isAlphaNum c then String c (alnum_prefix r) else EmptyString
  end.

(** [getShellName(s)], for the text [s] after a ['$']; returns the name
    and the number of bytes it used. *)
Definition getShellName (s : string) : string * nat :=
  let scan (r : string) :=
    match index_close r with
    | Some k => if Nat.eqb k 0 then (EmptyString, 2) (* bad syntax: eat "${}" *)
                else (String.substring 0 k r, k + 2)
    | None => (EmptyString, 1)                        (* bad syntax: eat "${" *)
    end in
  match s with
  | EmptyString => (EmptyString, 0)
  | String c r =>
    if Ascii.eqb c "{"%char then
      match r with
      | String c1 (String c2 _) =>
        if isShellSpecialVar c1 && Ascii.eqb c2 "}"%char
        then (String c1 EmptyString, 3) else scan r
      | _ => scan r
      end
    else if isShellSpecialVar c then (String c EmptyString, 1)
    else let n := alnum_prefix s in (n, String.length n)
  end.

(** The loop of [os.Expand]: a ['$'] with at least one byte after it is
    replaced by [mapping(name)] (nothing for bad syntax, the ['$'] itself
    when no name follows); every other byte is copied.  [fuel] bounds the
    iterations, [String.length s] is always enough. *)
Fixpoint expand_go (fuel : nat) (mapping : string -> string) (s : string) : string :=
  match fuel with
  | O => s
  | S fuel' =>
    match s with
    | EmptyString => EmptyString
    | String c rest =>
      match rest with
      | String _ _ =>
        if Ascii.eqb c "$"%char then
          let '(name, w) := getShellName rest in
          (if String.eqb name "" then (if Nat.ltb 0 w then "" else "$")
           else mapping name)
          +:+ expand_go fuel' mapping (str_drop w rest)
        else String c (expand_go fuel' mapping rest)
      | EmptyString => String c EmptyString
      end
    end
  end.

(** [os.Expand(s, mapping)] *)
Definition os_Expand (s : string) (mapping : string -> string) : string :=
  expand_go (String.length s) mapping s.

(* ------------------------------------------------------------------ *)
(** ** Strings used by the package *)

(** the one-byte strings holding a double quote and a line feed *)
Definition dq : string := String (ascii_of_nat 34) EmptyString.
Definition newline : string := String (ascii_of_nat 10) EmptyString.

(** [strings.Join(elems, sep)] *)
Fixpoint Join (elems : list string) (sep : string) : string :=
  match elems with
  | [] => EmptyString
  | [e] => e
  | e :: rest => e +:+ sep +:+ Join rest sep
  end.

(** [strings.HasSuffix] *)
Definition HasSuffix (s suffix : string) : bool :=
  Nat.leb (String.length suffix) (String.length s)
  && String.eqb (String.substring (String.length s - String.length suffix)
                                  (String.length suffix) s) suffix.

(** [strings.TrimSuffix] *)
Definition TrimSuffix (s suffix : string) : string :=
  if HasSuffix s suffix
  then String.substring 0 (String.length s - String.length suffix) s
  else s.

(* ------------------------------------------------------------------ *)
(** ** Slices of strings and the heap they live in *)

(** A Go [[]string]: a window on a backing array. *)
Record slice := mkSlice { s_arr : nat; s_off : nat; s_len : nat; s_cap : nat }.

(** The backing arrays, by address; [h_next] is the next free address. *)
Record heap := mkHeap { h_next : nat; h_arrs : gmap nat (list string) }.

Definition nil_slice : slice := mkSlice 0 0 0 0.

Definition arr_of (h : heap) (a : nat) : list string := default [] (h_arrs h !! a).

(** the elements [s[0:len(s)]] *)
Definition slice_read (h : heap) (s : slice) : list string :=
  take (s_len s) (drop (s_off s) (arr_of h (s_arr s))).

(** [s[i]] *)
Definition slice_get (h : heap) (s : slice) (i : nat) : string :=
  arr_of h (s_arr s) !!! (s_off s + i).

(** [s[i] = v]: writes into the backing array, seen by every alias. *)
Definition slice_set (h : heap) (s : slice) (i : nat) (v : string) : heap :=
  mkHeap (h_next h)
         (<[s_arr s := <[s_off s + i := v]> (arr_of h (s_arr s))]> (h_arrs h)).

(** a fresh backing array holding [xs], as for [[]string{xs...}] or the
    implicit slice of a variadic call *)
Definition alloc (h : heap) (xs : list string) : heap * slice :=
  (mkHeap (S (h_next h)) (<[h_next h := xs]> (h_arrs h)),
   mkSlice (h_next h) 0 (length xs) (length xs)).

(** the elements of [xs] stored from index [i] of slice [s] on *)
Fixpoint write_from (h : heap) (s : slice) (i : nat) (xs : list string) : heap :=
  match xs with
  | [] => h
  | x :: xs' => write_from (slice_set h s i x) s (S i) xs'
  end.

(** [append(s, xs...)]: in place when the capacity allows it, else into a
    fresh array (Go may round the new capacity up; it is taken exact here,
    which no statement below depends on). *)
Definition go_append (h : heap) (s : slice) (xs : list string) : heap * slice :=
  let n := s_len s + length xs in
  if Nat.leb n (s_cap s)
  then (write_from h s (s_len s) xs, mkSlice (s_arr s) (s_off s) n (s_cap s))
  else alloc h (slice_read h s ++ xs).

(* ------------------------------------------------------------------ *)
(** ** The operating system *)

(** what [exec.Command(path, args...)] with [c.Env = env] starts *)
Record launch := mkLaunch { l_path : string; l_args : list string; l_env : list string }.

(** What happens to a launch: it cannot be started ([exec.Error],
    [*fs.PathError], ...), or the child runs, writes [stdout] to the stdout
    sink and finishes with a status; [copyErr] is the error, if any, of
    copying its output into a sink that is not an [*os.File]. *)
Inductive outcome :=
| StartFailed (e : goerr)
| Waited (ws : WaitStatus) (stdout : string) (copyErr : goerr).

Record World := mkWorld {
  LookupEnv : string -> option string;      (** [os.LookupEnv] *)
  Environ : list string;                    (** [os.Environ()] *)
  Glob : string -> list string * goerr;     (** [filepath.Glob] *)
  Start : launch -> outcome                 (** the child, if any *)
}.

(** [os.Getenv] *)
Definition Getenv (w : World) (key : string) : string := default "" (LookupEnv w key).

(** [exec.Cmd.Run]: [Start] then [Wait]; an unsuccessful status wins over
    an output-copy error. *)
Definition cmd_Run (o : outcome) : goerr :=
  match o with
  | StartFailed e => e
  | Waited ws _ cerr => if ws_Success ws then cerr else ExitError ws
  end.

Definition written (o : outcome) : string :=
  match o with StartFailed _ => "" | Waited _ out _ => out end.

(* ------------------------------------------------------------------ *)
(** ** The environment a child gets ([os/exec], Go standard library) *)

(** [strings.Index(s, string(c))] for a one-byte [c]; [None] for [-1] *)
Fixpoint str_index (c : ascii) (s : string) : option nat :=
  match s with
  | EmptyString => None
  | String c' r => if Ascii.eqb c' c then Some 0 else option_map S (str_index c r)
  end.

Definition nul : ascii := Ascii.ascii_of_nat 0.

(** In [dedupEnvCase]: [i := strings.Index(kv, "=")], and when [i == 0]
    [i = strings.Index(kv[1:], "=") + 1]; [None] when [i < 0]. *)
Definition key_index (kv : string) : option nat :=
  match str_index "="%char kv with
  | Some 0 =>
    match str_index "="%char (str_drop 1 kv) with
    | Some n => Some (S n)
    | None => Some 0
    end
  | r => r
  end.

(** the key [kv[:i]] of an entry, if it has one *)
Definition env_key (kv : string) : option string :=
  option_map (fun i => String.substring 0 i kv) (key_index kv).

(** The loop of [dedupEnvCase(false, false, env)] (Unix), over [env] from
    its last entry to its first: an entry holding a NUL byte is dropped and
    sets the error; an entry without ['='] is kept unless empty; otherwise
    the entry is kept only when its key has not been seen yet. *)
Fixpoint dedup_loop (saw : gset string) (out : list string) (err : bool)
         (env_rev : list string) : list string * bool :=
  match env_rev with
  | [] => (out, err)
  | kv :: rest =>
    match str_index nul kv with
    | Some _ => dedup_loop saw out true rest
    | None =>
      match key_index kv with
      | None => dedup_loop saw (if String.eqb kv "" then out else out ++ [kv]) err rest
      | Some i =>
        let k := String.substring 0 i kv in
        if bool_decide (k ∈ saw) then dedup_loop saw out err rest
        else dedup_loop ({[k]} ∪ saw) (out ++ [kv]) err rest
      end
    end
  end.

(** [dedupEnv]: the loop, then [out] reversed back into the original order;
    the flag is the NUL error. *)
Definition dedupEnv (env : list string) : list string * bool :=
  let '(out, err) := dedup_loop ∅ [] false (rev env) in (rev out, err).

(** The environment the child of a launch gets on Unix: [Cmd.environ] with
    [c.Dir] empty is [dedupEnv(c.Env)] (a NUL error makes [Start] fail). *)
Definition child_env (l : launch) : list string := fst (dedupEnv (l_env l)).

(** a key that [k+"="+v] carries unchanged: nonempty, no ['='], no NUL *)
Definition valid_key (k : string) : bool :=
  match k with EmptyString => false | _ => true end &&
  match str_index "="%char k with None => true | Some _ => false end &&
  match str_index nul k with None => true | Some _ => false end.

(* ------------------------------------------------------------------ *)
(** ** [expandGlob], [run] and [Exec] *)

(** [expandGlob] (cmd.go:161), with its accumulator [result] *)
Fixpoint expandGlob_go (glob : string -> list string * goerr)
         (value result : list string) : list string * goerr :=
  match value with
  | [] => (result, ErrNil)
  | v :: vs =>
    let '(matches, err) := glob v in
    if negb (is_nil err) then ([], err)
    else expandGlob_go glob vs
           (match matches with [] => result ++ [v] | _ => result ++ matches end)
  end.

Definition expandGlob (glob : string -> list string * goerr) (value : list string)
  : list string * goerr :=
  expandGlob_go glob value [].

(** the results of [run]: [ran], [code], [err], plus what was launched and
    what the child wrote to the stdout sink *)
Record run_result := mkRun {
  r_ran : bool; r_code : Z; r_err : goerr;
  r_launched : option launch; r_stdout : string }.

(** [run] (cmd.go:133).  The overrides are appended to [os.Environ()] in the
    order of the map's iteration (unspecified in Go). *)
Definition run (w : World) (env : gmap string string) (cmd : string)
           (args : list string) : run_result :=
  let '(expanded, err) := expandGlob (Glob w) args in
  if negb (is_nil err) then mkRun false 0 err None ""
  else
    let c := mkLaunch cmd expanded
               (Environ w ++ map (fun kv => kv.1 +:+ "=" +:+ kv.2) (map_to_list env)) in
    let o := Start w c in
    let err := cmd_Run o in
    mkRun (CmdRan err) (ExitStatus err) err (Some c) (written o).

(** the closure [expand] of [Exec]: the overrides first, then [os.Getenv] *)
Definition expand_fn (w : World) (env : gmap string string) (s : string) : string :=
  match env !! s with
  | Some s2 => s2
  | None => Getenv w s
  end.

(** [for i := range args { args[i] = os.Expand(args[i], expand) }] *)
Definition expand_args (mapping : string -> string) (h : heap) (args : slice) : heap :=
  fold_left (fun h i => slice_set h args i (os_Expand (slice_get h args i) mapping))
            (seq 0 (s_len args)) h.

Record exec_result := mkExec {
  e_heap : heap; e_ran : bool; e_err : goerr;
  e_launched : option launch; e_stdout : string }.

(** [`running "%s %s" failed with exit code %d`] *)
Definition exit_msg (cmd : string) (args : list string) (code : Z) : string :=
  "running " +:+ dq +:+ cmd +:+ " " +:+ Join args " " +:+ dq
  +:+ " failed with exit code " +:+ pretty code.

(** [`failed to run "%s %s: %v"`] *)
Definition launch_msg (cmd : string) (args : list string) (err : goerr) : string :=
  "failed to run " +:+ dq +:+ cmd +:+ " " +:+ Join args " " +:+ ": " +:+ Error err +:+ dq.

(** [Exec] (cmd.go:111); [args] is the variadic slice, updated in place. *)
Definition Exec (w : World) (env : gmap string string) (cmd : string)
           (h : heap) (args : slice) : exec_result :=
  let expand := expand_fn w env in
  let cmd := os_Expand cmd expand in
  let h := expand_args expand h args in
  let argv := slice_read h args in
  let r := run w env cmd argv in
  if is_nil (r_err r) then mkExec h true ErrNil (r_launched r) (r_stdout r)
  else if r_ran r then
    mkExec h (r_ran r) (mg_Fatalf (r_code r) (exit_msg cmd argv (r_code r)))
           (r_launched r) (r_stdout r)
  else
    mkExec h (r_ran r) (fmt_Errorf (launch_msg cmd argv (r_err r)))
           (r_launched r) (r_stdout r).

(** [RunWith]: stdout goes to [os.Stdout] or nowhere, per [mg.Verbose()]. *)
Definition RunWith (w : World) (env : gmap string string) (cmd : string)
           (h : heap) (args : slice) : heap * goerr :=
  let r := Exec w env cmd h args in (e_heap r, e_err r).

(** [Run] *)
Definition Run (w : World) (cmd : string) (h : heap) (args : slice) : heap * goerr :=
  RunWith w ∅ cmd h args.

(** [OutputWith]: stdout captured in a [bytes.Buffer]. *)
Definition OutputWith (w : World) (env : gmap string string) (cmd : string)
           (h : heap) (args : slice) : heap * string * goerr :=
  let r := Exec w env cmd h args in
  (e_heap r, TrimSuffix (e_stdout r) newline, e_err r).

(** [Output] *)
Definition Output (w : World) (cmd : string) (h : heap) (args : slice)
  : heap * string * goerr :=
  OutputWith w ∅ cmd h args.

(** [RunCmd(cmd, args...)]: the returned closure, applied to the slice
    [args2] of its own variadic call. *)
Definition RunCmd (w : World) (cmd : string) (args : slice)
  : heap -> slice -> heap * goerr :=
  fun h args2 =>
    let '(h, s) := go_append h args (slice_read h args2) in
    Run w cmd h s.

(** [OutCmd(cmd, args...)]: the returned closure. *)
Definition OutCmd (w : World) (cmd : string) (args : slice)
  : heap -> slice -> heap * string * goerr :=
  fun h args2 =>
    let '(h, s) := go_append h args (slice_read h args2) in
    Output w cmd h s.

(** [RunV] and [RunWithV]: as [RunWith], with stdout always on [os.Stdout]
    (the sink is not part of the results modelled here). *)
Definition RunWithV (w : World) (env : gmap string string) (cmd : string)
           (h : heap) (args : slice) : heap * goerr :=
  let r := Exec w env cmd h args in (e_heap r, e_err r).

Definition RunV (w : World) (cmd : string) (h : heap) (args : slice) : heap * goerr :=
  RunWithV w ∅ cmd h args.

(* ------------------------------------------------------------------ *)
(** ** A concrete machine, for the worked instances below *)

(** [exec.ErrNotFound] and the [*exec.Error] of a failed [exec.LookPath]. *)
Definition ErrNotFound : goerr :=
  OtherErr "executable file not found in $PATH" None None.
Definition exec_Error (name : string) : goerr :=
  OtherErr ("exec: " +:+ dq +:+ name +:+ dq +:+ ": " +:+ Error ErrNotFound)
           None (Some ErrNotFound).

(** [filepath.ErrBadPattern] *)
Definition ErrBadPattern : goerr := OtherErr "syntax error in pattern" None None.

(** [FOO=baz] in the environment; [a.go] and [b.go] in the working
    directory; [ok] exits 0 after printing two lines, [fail3] exits 3,
    [killed] is terminated by SIGKILL, [echo] exits 0 but its output cannot
    be written to the sink; nothing else is installed. *)
Definition demo_world : World := mkWorld
  (fun k => if String.eqb k "FOO" then Some "baz" else None)
  ["FOO=baz"]
  (fun pat => if String.eqb pat "*.go" then (["a.go"; "b.go"], ErrNil)
              else if String.eqb pat "[" then ([], ErrBadPattern)
              else ([], ErrNil))
  (fun c =>
     if String.eqb (l_path c) "ok" then
       Waited (WExited 0) ("hello" +:+ newline +:+ newline) ErrNil
     else if String.eqb (l_path c) "fail3" then Waited (WExited 3) "" ErrNil
     else if String.eqb (l_path c) "killed" then Waited (WSignaled "killed") "" ErrNil
     else if String.eqb (l_path c) "echo" then
       Waited (WExited 0) "hi" (OtherErr "write |1: broken pipe" None None)
     else StartFailed (exec_Error (l_path c))).

(** one backing array holding [$FOO *.go *.xyz], and the slice over it *)
Definition demo_heap : heap := mkHeap 1 {[ 0 := ["$FOO"; "*.go"; "*.xyz"] ]}.
Definition demo_args : slice := mkSlice 0 0 3 3.

(** A slice as Go keeps it: [len <= cap], and the capacity lies inside its
    backing array. *)
Definition slice_ok (h : heap) (s : slice) : Prop :=
  s_len s <= s_cap s /\ s_off s + s_cap s <= length (arr_of h (s_arr s)).

(** what [expandGlob] puts in place of one argument: its matches, or the
    argument itself when there are none *)
Definition glob_arg (glob : string -> list string * goerr) (v : string) : list string :=
  match fst (glob v) with [] => [v] | ms => ms end.

(** the arguments [$FOO] and [[] (a malformed pattern) *)
Definition bad_heap : heap := mkHeap 1 {[ 0 := ["$FOO"; "["] ]}.
Definition bad_args : slice := mkSlice 0 0 2 2.

(** the same machine after [FOO] has been changed to [qux] *)
Definition qux_world : World := mkWorld
  (fun k => if String.eqb k "FOO" then Some "qux" else None)
  ["FOO=qux"] (Glob demo_world) (Start demo_world).

(** the slice [[x]] of a variadic call with one argument, in [demo_heap] *)
Definition extra_heap : heap := mkHeap 2 (<[1 := ["x"]]> (h_arrs demo_heap)).
Definition extra_args : slice := mkSlice 1 0 1 1.

(** no ['$'] in the string *)
Fixpoint no_dollar (s : string) : bool :=
  match s with
  | EmptyString => true
  | String c r => negb (Ascii.eqb c "$"%char) && no_dollar r
  end.

(** Errors the operating system side can produce: a failed start or a
    failed output copy is never an [*exec.ExitError] (that type only comes
    from [Wait] after an unsuccessful exit) nor an [mg] error. *)
Definition os_error_ok (e : goerr) : Prop :=
  match e with ExitError _ | FatalErr _ _ => False | _ => True end.

Definition outcome_ok (o : outcome) : Prop :=
  match o with
  | StartFailed e => os_error_ok e
  | Waited _ _ cerr => os_error_ok cerr
  end.

(* ================================================================== *)
(** * Properties *)

(** ** How [Exec] ends, once it has launched the command *)

Lemma Exec_launched w env cmd h args l :
  e_launched (Exec w env cmd h args) = Some l ->
  let err := cmd_Run (Start w l) in
  let c := os_Expand cmd (expand_fn w env) in
  let argv := slice_read (e_heap (Exec w env cmd h args)) args in
  l_path l = c /\
  l_args l = fst (expandGlob (Glob w) argv) /\
  snd (expandGlob (Glob w) argv) = ErrNil /\
  e_ran (Exec w env cmd h args) = CmdRan err /\
  e_err (Exec w env cmd h args) =
    (if is_nil err then ErrNil
     else if CmdRan err then mg_Fatalf (ExitStatus err) (exit_msg c argv (ExitStatus err))
     else fmt_Errorf (launch_msg c argv err)) /\
  e_stdout (Exec w env cmd h args) = written (Start w l).
Proof.
  unfold Exec, run. cbn zeta.
  set (c := os_Expand cmd (expand_fn w env)).
  set (h' := expand_args (expand_fn w env) h args).
  set (argv := slice_read h' args).
  destruct (expandGlob (Glob w) argv) as [ex err] eqn:Eg.
  destruct (is_nil err) eqn:En; cbn.
  - destruct err; try discriminate En.
    set (L := {| l_path := c; l_args := ex; l_env := _ |}).
    destruct (is_nil (cmd_Run (Start w L))) eqn:E1.
    + assert (E2 : CmdRan (cmd_Run (Start w L)) = true)
        by (destruct (cmd_Run (Start w L)); easy).
      cbn; intros [= <-]; rewrite E1, E2; cbn; fold argv; rewrite Eg; repeat split.
    + destruct (CmdRan (cmd_Run (Start w L))) eqn:E2; cbn; intros [= <-];
        rewrite E1, E2; cbn; fold argv; rewrite Eg; repeat split.
  - rewrite En; cbn; intros [=].
Qed.

(** [Exec] launches nothing when glob expansion fails. *)
Lemma Exec_not_launched w env cmd h args :
  e_launched (Exec w env cmd h args) = None ->
  let c := os_Expand cmd (expand_fn w env) in
  let argv := slice_read (e_heap (Exec w env cmd h args)) args in
  let e := snd (expandGlob (Glob w) argv) in
  e <> ErrNil /\ e_ran (Exec w env cmd h args) = false /\
  e_err (Exec w env cmd h args) = fmt_Errorf (launch_msg c argv e) /\
  e_stdout (Exec w env cmd h args) = "".
Proof.
  unfold Exec, run. cbn zeta.
  set (c := os_Expand cmd (expand_fn w env)).
  set (h' := expand_args (expand_fn w env) h args).
  set (argv := slice_read h' args).
  destruct (expandGlob (Glob w) argv) as [ex err] eqn:Eg.
  destruct (is_nil err) eqn:En; cbn.
  - destruct err; try discriminate En.
    set (L := {| l_path := c; l_args := ex; l_env := _ |}).
    destruct (is_nil (cmd_Run (Start w L))), (CmdRan (cmd_Run (Start w L)));
      cbn; intros [=].
  - rewrite En; cbn; intros _; fold argv; rewrite Eg; cbn.
    destruct err; try discriminate En; repeat split; congruence.
Qed.

(** ** Exit codes *)

(** C1: when the started command exits with a status N in 1..255, [Exec]
    reports that it ran and returns the [mg.Fatalf] error carrying exactly N,
    so that [ExitStatus] of the error is N. *)
Theorem Exec_exit_code_propagated w env cmd h args l N out cerr :
  e_launched (Exec w env cmd h args) = Some l ->
  Start w l = Waited (WExited N) out cerr ->
  (1 <= N <= 255)%Z ->
  e_ran (Exec w env cmd h args) = true /\
  (exists msg, e_err (Exec w env cmd h args) = mg_Fatalf N msg) /\
  ExitStatus (e_err (Exec w env cmd h args)) = N.
Proof.
  intros HL HS HN.
  destruct (Exec_launched w env cmd h args l HL) as (_ & _ & _ & Hran & Herr & _).
  rewrite HS in Hran, Herr. cbn in Hran, Herr.
  assert (E : Z.eqb N 0 = false) by (apply Z.eqb_neq; lia).
  rewrite E in Hran, Herr. cbn in Hran, Herr.
  rewrite Hran, Herr. split; [reflexivity|]. split; [eexists; reflexivity|reflexivity].
Qed.

Lemma Exec_exit_code_propagated_witness :
  (exists l, e_launched (Exec demo_world ∅ "fail3" demo_heap demo_args) = Some l /\
             Start demo_world l = Waited (WExited 3) "" ErrNil) /\
  e_ran (Exec demo_world ∅ "fail3" demo_heap demo_args) = true /\
  (exists msg, e_err (Exec demo_world ∅ "fail3" demo_heap demo_args) = mg_Fatalf 3 msg) /\
  ExitStatus (e_err (Exec demo_world ∅ "fail3" demo_heap demo_args)) = 3%Z.
Proof.
  assert (HL : e_launched (Exec demo_world ∅ "fail3" demo_heap demo_args)
               = Some (mkLaunch "fail3" ["baz"; "a.go"; "b.go"; "*.xyz"] ["FOO=baz"]))
    by reflexivity.
  split; [eexists; split; [exact HL | reflexivity]|].
  apply (Exec_exit_code_propagated demo_world ∅ "fail3" demo_heap demo_args _ 3 "" ErrNil HL);
    [reflexivity | lia].
Defined.

(** ** Did the command run? *)




(** ** Success *)

(** C3, where the code departs from its documentation: [echo] exits 0, but its output cannot be copied to the sink;
    [Cmd.Run] reports the copy error and [Exec] returns ran=false with a
    non-nil error. *)
Lemma Exec_exit0_counterexample :
  let r := Exec demo_world ∅ "echo" demo_heap demo_args in
  (exists l, e_launched r = Some l /\
             exists out cerr, Start demo_world l = Waited (WExited 0) out cerr) /\
  e_ran r = false /\ e_err r <> ErrNil.
Proof.
  cbn zeta. split; [|split; [reflexivity | discriminate]].
  eexists. split; [reflexivity|]. eexists _, _. reflexivity.
Qed.

(** C3, as the code has it.  Whenever the error [Exec] returns is nil, ran
    is true.  When the command exits 0 and its output reaches the sinks
    without error, [Exec] returns ran=true and a nil error.  But when the
    command exits 0 and copying its output into the stdout sink fails,
    [Cmd.Run] returns the copy error, and [Exec] returns ran=false with a
    failed-to-run error carrying that copy error's text. *)
Theorem Exec_success w env cmd h args :
  (e_err (Exec w env cmd h args) = ErrNil -> e_ran (Exec w env cmd h args) = true) /\
  (forall l out cerr,
     e_launched (Exec w env cmd h args) = Some l ->
     Start w l = Waited (WExited 0) out cerr ->
     (cerr = ErrNil ->
      e_ran (Exec w env cmd h args) = true /\ e_err (Exec w env cmd h args) = ErrNil) /\
     (os_error_ok cerr -> cerr <> ErrNil ->
      e_ran (Exec w env cmd h args) = false /\
      e_err (Exec w env cmd h args)
      = fmt_Errorf (launch_msg (os_Expand cmd (expand_fn w env))
                               (slice_read (e_heap (Exec w env cmd h args)) args) cerr))).
Proof.
  split.
  - unfold Exec. cbn zeta. destruct (is_nil _); [reflexivity|].
    destruct (r_ran _); cbn [e_err]; discriminate.
  - intros l out cerr HL HS.
    destruct (Exec_launched w env cmd h args l HL) as (_ & _ & _ & Hran & Herr & _).
    rewrite HS in Hran, Herr. cbn [cmd_Run ws_Success Z.eqb] in Hran, Herr.
    rewrite Hran, Herr. split.
    + intros ->. split; reflexivity.
    + intros Hok Hne.
      assert (Hn : is_nil cerr = false) by (destruct cerr; [congruence|reflexivity..]).
      assert (Hc : CmdRan cerr = false) by (destruct cerr; easy).
      rewrite Hn, Hc. split; reflexivity.
Qed.

Lemma Exec_success_witness :
  e_launched (Exec demo_world ∅ "echo" demo_heap demo_args)
    = Some (mkLaunch "echo" ["baz"; "a.go"; "b.go"; "*.xyz"] ["FOO=baz"]) /\
  Start demo_world (mkLaunch "echo" ["baz"; "a.go"; "b.go"; "*.xyz"] ["FOO=baz"])
    = Waited (WExited 0) "hi" (OtherErr "write |1: broken pipe" None None) /\
  e_ran (Exec demo_world ∅ "echo" demo_heap demo_args) = false.
Proof.
  assert (HL : e_launched (Exec demo_world ∅ "echo" demo_heap demo_args)
               = Some (mkLaunch "echo" ["baz"; "a.go"; "b.go"; "*.xyz"] ["FOO=baz"]))
    by reflexivity.
  assert (HS : Start demo_world (mkLaunch "echo" ["baz"; "a.go"; "b.go"; "*.xyz"] ["FOO=baz"])
               = Waited (WExited 0) "hi" (OtherErr "write |1: broken pipe" None None))
    by reflexivity.
  split; [exact HL|]. split; [exact HS|].
  refine (proj1 (proj2 (proj2 (Exec_success demo_world ∅ "echo" demo_heap demo_args) _ _ _ HL HS)
                  I _)).
  discriminate.
Defined.

(** ** Launch failures *)

(** C4 fails in one point: the launch-failure error formats the OS error
    with [%v]; it does not wrap it ([errors.Unwrap] gives nothing). *)
Lemma Exec_launch_failure_counterexample :
  let r := Exec demo_world ∅ "nope" demo_heap demo_args in
  (exists l, e_launched r = Some l /\ Start demo_world l = StartFailed (exec_Error "nope")) /\
  e_ran r = false /\ Unwrap (e_err r) = None.
Proof.
  cbn zeta. split; [|split; reflexivity].
  eexists. split; reflexivity.
Qed.

(** C4, as the code has it: when the command cannot be started, [Exec]
    returns ran=false and a new error whose text is
    [failed to run "<cmd> <args>: <OS error text>"]; it has no exit status of
    its own ([ExitStatus] gives the generic 1) and does not wrap the OS error. *)
Theorem Exec_launch_failure w env cmd h args l m st wr :
  e_launched (Exec w env cmd h args) = Some l ->
  Start w l = StartFailed (OtherErr m st wr) ->
  let r := Exec w env cmd h args in
  e_ran r = false /\
  e_err r = fmt_Errorf ("failed to run " +:+ dq +:+ os_Expand cmd (expand_fn w env)
                        +:+ " " +:+ Join (slice_read (e_heap r) args) " " +:+ ": "
                        +:+ m +:+ dq) /\
  ExitStatus (e_err r) = 1%Z /\ Unwrap (e_err r) = None.
Proof.
  intros HL HS.
  destruct (Exec_launched w env cmd h args l HL) as (_ & _ & _ & Hran & Herr & _).
  rewrite HS in Hran, Herr. cbn in Hran, Herr. cbn zeta.
  rewrite Hran, Herr. repeat split.
Qed.

Lemma Exec_launch_failure_witness :
  (exists l, e_launched (Exec demo_world ∅ "nope" demo_heap demo_args) = Some l /\
             Start demo_world l = StartFailed (exec_Error "nope")) /\
  e_ran (Exec demo_world ∅ "nope" demo_heap demo_args) = false /\
  Unwrap (e_err (Exec demo_world ∅ "nope" demo_heap demo_args)) = None.
Proof.
  assert (HL : e_launched (Exec demo_world ∅ "nope" demo_heap demo_args)
               = Some (mkLaunch "nope" ["baz"; "a.go"; "b.go"; "*.xyz"] ["FOO=baz"]))
    by reflexivity.
  split; [eexists; split; [exact HL | reflexivity]|].
  destruct (Exec_launch_failure demo_world ∅ "nope" demo_heap demo_args _ _ _ _ HL
              eq_refl) as (Hran & _ & _ & Hu).
  split; [exact Hran | exact Hu].
Defined.

(** ** Variable expansion *)

Section Expand.

Variable mapping : string -> string.

Lemma length_str_drop (i : nat) (s : string) :
  String.length (str_drop i s) <= String.length s.
Proof.
  revert s. induction i as [|i IH]; intros [|c s]; cbn; try lia.
  specialize (IH s). lia.
Qed.

Lemma expand_go_fuel (f1 f2 : nat) (s : string) :
  String.length s <= f1 -> String.length s <= f2 ->
  expand_go f1 mapping s = expand_go f2 mapping s.
Proof.
  revert f2 s. induction f1 as [|f1 IH]; intros f2 s H1 H2.
  - destruct s; cbn in H1; [|lia]. destruct f2; reflexivity.
  - destruct f2 as [|f2]; [destruct s; cbn in H2; [reflexivity|lia]|].
    destruct s as [|c rest]; [reflexivity|]. cbn in H1, H2. cbn.
    destruct rest as [|c' rest']; [reflexivity|].
    destruct (Ascii.eqb c "$"%char).
    + destruct (getShellName (String c' rest')) as [name wd].
      f_equal. apply IH; pose proof (length_str_drop wd (String c' rest')); lia.
    + f_equal. apply IH; lia.
Qed.

Lemma os_Expand_fuel (f : nat) (s : string) :
  String.length s <= f -> expand_go f mapping s = os_Expand s mapping.
Proof. intros H. apply expand_go_fuel; lia. Qed.

End Expand.

Lemma append_nil_l (s : string) : "" +:+ s = s.
Proof. reflexivity. Qed.

Lemma append_cons (c : ascii) (s t : string) : String c s +:+ t = String c (s +:+ t).
Proof. reflexivity. Qed.

Lemma length_append (s t : string) :
  String.length (s +:+ t) = String.length s + String.length t.
Proof.
  induction s as [|c s IH]; simpl; [reflexivity|]. now rewrite IH.
Qed.

Lemma str_drop_app (s t : string) : str_drop (String.length s) (s +:+ t) = t.
Proof. induction s as [|c s IH]; simpl; auto. Qed.

Lemma str_drop_add (a b : nat) (s : string) :
  str_drop (a + b) s = str_drop b (str_drop a s).
Proof.
  revert s. induction a as [|a IH]; intros [|c s]; cbn; auto. now destruct b.
Qed.

Lemma substring_prefix (s t : string) : String.substring 0 (String.length s) (s +:+ t) = s.
Proof.
  induction s as [|c s IH]; simpl; [now destruct t | now rewrite IH].
Qed.

(** the names [$NAME] takes: a letter or [_], then letters, digits, [_] *)
Fixpoint all_alnum (s : string) : bool :=
  match s with EmptyString => true | String c r => isAlphaNum c && all_alnum r end.

Definition var_name (name : string) : bool :=
  match name with
  | EmptyString => false
  | String c r => isAlphaNum c && negb (isShellSpecialVar c) && all_alnum r
  end.

Definition starts_alnum (s : string) : bool :=
  match s with EmptyString => false | String c _ => isAlphaNum c end.

Lemma alnum_prefix_app (name rest : string) :
  all_alnum name = true -> starts_alnum rest = false ->
  alnum_prefix (name +:+ rest) = name.
Proof.
  intros Hn Hr. induction name as [|c r IH].
  - rewrite append_nil_l. destruct rest; cbn [alnum_prefix starts_alnum] in *;
      [reflexivity|]. now rewrite Hr.
  - cbn [all_alnum] in Hn. apply andb_true_iff in Hn as [Hc Hr'].
    rewrite append_cons. cbn [alnum_prefix]. rewrite Hc, IH; auto.
Qed.

Lemma getShellName_var (name rest : string) :
  var_name name = true -> starts_alnum rest = false ->
  getShellName (name +:+ rest) = (name, String.length name).
Proof.
  intros Hn Hr. destruct name as [|c r]; [discriminate|].
  cbn [var_name] in Hn. apply andb_true_iff in Hn as [Hn Hall].
  apply andb_true_iff in Hn as [Halnum Hspec].
  apply negb_true_iff in Hspec.
  assert (Hbrace : Ascii.eqb c "{"%char = false).
  { destruct (Ascii.eqb_spec c "{"%char) as [->|]; [discriminate|reflexivity]. }
  rewrite append_cons. cbn [getShellName]. rewrite Hbrace, Hspec.
  rewrite <- (alnum_prefix_app (String c r) rest); cbn [all_alnum];
    [reflexivity | rewrite Halnum, Hall; reflexivity | exact Hr].
Qed.

Lemma index_close_app (name rest : string) :
  index_close name = None -> index_close (name +:+ String "}"%char rest) = Some (String.length name).
Proof.
  induction name as [|c r IH]; [reflexivity|].
  rewrite append_cons. cbn [index_close String.length].
  destruct (Ascii.eqb c "}"%char); [discriminate|].
  intros H. destruct (index_close r); [discriminate|]. now rewrite IH.
Qed.

Lemma getShellName_braced (name rest : string) :
  name <> EmptyString -> index_close name = None ->
  getShellName (String "{"%char (name +:+ String "}"%char rest))
  = (name, String.length name + 2).
Proof.
  intros Hne Hcl.
  assert (Hscan : (match index_close (name +:+ String "}"%char rest) with
                   | Some k => if Nat.eqb k 0 then (EmptyString, 2)
                               else (String.substring 0 k (name +:+ String "}"%char rest), k + 2)
                   | None => (EmptyString, 1)
                   end) = (name, String.length name + 2)).
  { rewrite index_close_app by exact Hcl.
    assert (E : Nat.eqb (String.length name) 0 = false)
      by (destruct name; [congruence|reflexivity]).
    now rewrite E, substring_prefix. }
  destruct name as [|c1 r]; [congruence|].
  rewrite append_cons in *. cbn [getShellName]. rewrite Ascii.eqb_refl.
  destruct r as [|c2 r'].
  - rewrite append_nil_l in *.
    destruct (isShellSpecialVar c1); cbn [andb]; [reflexivity|exact Hscan].
  - assert (Hc2 : Ascii.eqb c2 "}"%char = false).
    { cbn [index_close] in Hcl. destruct (Ascii.eqb c1 "}"%char); [discriminate|].
      destruct (Ascii.eqb c2 "}"%char); [discriminate|reflexivity]. }
    rewrite append_cons in *. rewrite Hc2, andb_false_r. exact Hscan.
Qed.

Lemma expand_go_dollar (f : nat) (m : string -> string) (c : ascii) (x : string) :
  expand_go (S f) m (String "$"%char (String c x)) =
  let '(name, w) := getShellName (String c x) in
  (if String.eqb name "" then (if Nat.ltb 0 w then "" else "$") else m name)
  +:+ expand_go f m (str_drop w (String c x)).
Proof. reflexivity. Qed.

(** [os.Expand] replaces a [$NAME] token by [mapping NAME]. *)
Lemma os_Expand_var (m : string -> string) (name rest : string) :
  var_name name = true -> starts_alnum rest = false ->
  os_Expand (String "$"%char (name +:+ rest)) m = m name +:+ os_Expand rest m.
Proof.
  intros Hn Hr. destruct name as [|c r]; [discriminate|].
  unfold os_Expand at 1. rewrite append_cons. cbn [String.length].
  rewrite expand_go_dollar, <- append_cons, getShellName_var by assumption.
  cbv beta iota zeta. cbn [String.eqb]. rewrite str_drop_app.
  f_equal. apply os_Expand_fuel. rewrite length_append. cbn [String.length]. lia.
Qed.

(** ... and a [${NAME}] token by [mapping NAME]. *)
Lemma os_Expand_braced (m : string -> string) (name rest : string) :
  name <> EmptyString -> index_close name = None ->
  os_Expand (String "$"%char (String "{"%char (name +:+ String "}"%char rest))) m
  = m name +:+ os_Expand rest m.
Proof.
  intros Hne Hcl. unfold os_Expand at 1. cbn [String.length].
  rewrite expand_go_dollar, getShellName_braced by assumption.
  cbv beta iota zeta.
  destruct name as [|c r]; [congruence|]. cbn [String.eqb].
  replace (String.length (String c r) + 2) with (S (String.length (String c r) + 1)) by lia.
  cbn [str_drop]. rewrite str_drop_add, str_drop_app. cbn [str_drop].
  f_equal. apply os_Expand_fuel. rewrite length_append. cbn [String.length]. lia.
Qed.

(** ** The argument slice is updated in place *)


Lemma arr_of_slice_set h s i v :
  arr_of (slice_set h s i v) (s_arr s) = <[s_off s + i := v]> (arr_of h (s_arr s)).
Proof. unfold arr_of, slice_set. cbn. now rewrite lookup_insert_eq. Qed.

Lemma arr_of_expand_args_go (m : string -> string) (s : slice) (l : list nat) (h : heap) :
  arr_of (fold_left (fun h i => slice_set h s i (os_Expand (slice_get h s i) m)) l h) (s_arr s)
  = fold_left (fun arr i => <[s_off s + i := os_Expand (arr !!! (s_off s + i)) m]> arr)
              l (arr_of h (s_arr s)).
Proof.
  revert h. induction l as [|i l IH]; intros h; [reflexivity|].
  cbn [fold_left]. rewrite IH, arr_of_slice_set. reflexivity.
Qed.

Lemma fold_update_window (f : string -> string) (A B1 B2 C : list string) (k : nat) :
  length B1 = k ->
  fold_left (fun arr i => <[length A + i := f (arr !!! (length A + i))]> arr)
            (seq k (length B2)) (A ++ B1 ++ B2 ++ C)
  = A ++ B1 ++ map f B2 ++ C.
Proof.
  revert B1 k. induction B2 as [|x B2 IH]; intros B1 k Hk; [reflexivity|].
  cbn [length seq fold_left].
  assert (Hx : (A ++ B1 ++ (x :: B2) ++ C) !!! (length A + k) = x).
  { rewrite list_lookup_total_alt, app_assoc, <- Hk, <- length_app.
    cbn [app]. now rewrite list_lookup_middle. }
  rewrite Hx, insert_app_r, <- Hk, <- (Nat.add_0_r (length B1)), insert_app_r.
  cbn [app insert list_insert].
  replace (A ++ B1 ++ f x :: B2 ++ C) with (A ++ (B1 ++ [f x]) ++ B2 ++ C)
    by (now rewrite <- app_assoc).
  rewrite Nat.add_0_r, IH by (rewrite length_app; cbn; lia).
  now rewrite <- app_assoc.
Qed.

(** [for i := range args { args[i] = os.Expand(args[i], expand) }] leaves
    in the caller's array the expanded strings. *)
Lemma expand_args_read (m : string -> string) (h : heap) (s : slice) :
  slice_ok h s ->
  slice_read (expand_args m h s) s = map (fun a => os_Expand a m) (slice_read h s).
Proof.
  unfold slice_ok, slice_read, expand_args. intros [Hlc Hok].
  rewrite arr_of_expand_args_go.
  set (arr := arr_of h (s_arr s)) in *.
  set (A := take (s_off s) arr).
  set (B := take (s_len s) (drop (s_off s) arr)).
  set (C := drop (s_len s) (drop (s_off s) arr)).
  assert (Harr : arr = A ++ [] ++ B ++ C).
  { cbn. unfold A, B, C. now rewrite !take_drop. }
  assert (HA : length A = s_off s) by (unfold A; rewrite length_take; lia).
  assert (HB : length B = s_len s)
    by (unfold B; rewrite length_take, length_drop; lia).
  pose proof (fold_update_window (fun a => os_Expand a m) A [] B C 0 eq_refl) as Hf.
  cbv beta in Hf. rewrite HA, HB, <- Harr in Hf. rewrite Hf.
  cbn [app]. rewrite drop_app_length', take_app_length'; try reflexivity.
  - now rewrite length_map.
  - now rewrite HA.
Qed.

Lemma Exec_heap w env cmd h args :
  e_heap (Exec w env cmd h args) = expand_args (expand_fn w env) h args.
Proof.
  unfold Exec. cbn zeta.
  destruct (is_nil _); [reflexivity|]. destruct (r_ran _); reflexivity.
Qed.

(** C5: [Exec] expands every [$NAME] and [${NAME}] token of the command and
    of each argument with [expand], which looks the name up in the override
    map first and in the ambient environment only when it is absent there,
    giving the empty string when it is in neither; an override therefore
    wins over an ambient variable of the same name. *)
Theorem Exec_expands_variables w env cmd h args :
  slice_ok h args ->
  let m := expand_fn w env in
  (forall name, m name = match env !! name with
                         | Some v => v
                         | None => default "" (LookupEnv w name)
                         end) /\
  (forall name rest, var_name name = true -> starts_alnum rest = false ->
     os_Expand (String "$"%char (name +:+ rest)) m = m name +:+ os_Expand rest m) /\
  (forall name rest, name <> EmptyString -> index_close name = None ->
     os_Expand (String "$"%char (String "{"%char (name +:+ String "}"%char rest))) m
     = m name +:+ os_Expand rest m) /\
  (forall l, e_launched (Exec w env cmd h args) = Some l -> l_path l = os_Expand cmd m) /\
  slice_read (e_heap (Exec w env cmd h args)) args
  = map (fun a => os_Expand a m) (slice_read h args).
Proof.
  intros Hok m. split; [reflexivity|].
  split; [intros; now apply os_Expand_var|].
  split; [intros; now apply os_Expand_braced|].
  split.
  - intros l HL. apply (Exec_launched w env cmd h args l HL).
  - rewrite Exec_heap. now apply expand_args_read.
Qed.

Lemma Exec_expands_variables_witness :
  slice_ok demo_heap demo_args /\
  slice_read (e_heap (Exec demo_world {[ "FOO" := "bar" ]} "ok" demo_heap demo_args)) demo_args
  = map (fun a => os_Expand a (expand_fn demo_world {[ "FOO" := "bar" ]}))
        (slice_read demo_heap demo_args).
Proof.
  assert (Hok : slice_ok demo_heap demo_args) by (split; vm_compute; lia).
  split; [exact Hok|].
  apply (Exec_expands_variables demo_world {[ "FOO" := "bar" ]} "ok" demo_heap demo_args Hok).
Defined.

(** The override [FOO=bar] wins over the ambient [FOO=baz]. *)
Example Exec_override_wins :
  slice_read (e_heap (Exec demo_world {[ "FOO" := "bar" ]} "ok" demo_heap demo_args)) demo_args
  = ["bar"; "*.go"; "*.xyz"] /\
  slice_read (e_heap (Exec demo_world ∅ "ok" demo_heap demo_args)) demo_args
  = ["baz"; "*.go"; "*.xyz"].
Proof. split; reflexivity. Qed.

(** ** Glob expansion *)

Lemma expandGlob_go_ok (glob : string -> list string * goerr) (vs acc : list string) :
  (forall v, In v vs -> snd (glob v) = ErrNil) ->
  expandGlob_go glob vs acc = (acc ++ flat_map (glob_arg glob) vs, ErrNil).
Proof.
  revert acc. induction vs as [|v vs IH]; intros acc Hok; cbn.
  - now rewrite app_nil_r.
  - unfold glob_arg at 1. pose proof (Hok v (or_introl eq_refl)) as Hv.
    destruct (glob v) as [ms err] eqn:Eg. cbn in Hv |- *. subst err. cbn.
    rewrite IH by (intros; apply Hok; now right).
    rewrite app_assoc. now destruct ms.
Qed.

Lemma expandGlob_go_nil_err (glob : string -> list string * goerr) (vs acc : list string) :
  snd (expandGlob_go glob vs acc) = ErrNil ->
  fst (expandGlob_go glob vs acc) = acc ++ flat_map (glob_arg glob) vs.
Proof.
  revert acc. induction vs as [|v vs IH]; intros acc; cbn.
  - now rewrite app_nil_r.
  - unfold glob_arg at 1. destruct (glob v) as [ms err] eqn:Eg. cbn.
    destruct (is_nil err) eqn:En; cbn.
    + intros H. rewrite IH by exact H. rewrite app_assoc.
      destruct err; try discriminate En. now destruct ms.
    + intros ->. discriminate En.
Qed.

(** C6: [run] glob-expands each argument on its own: an argument with
    matches is replaced, where it stands, by its matches in order; one
    without matches stays as it is and raises no error; the command name is
    passed to [exec.Command] without any glob expansion. *)
Theorem run_globs_each_arg w env cmd args :
  (forall v, In v args -> snd (Glob w v) = ErrNil) ->
  exists l, r_launched (run w env cmd args) = Some l /\
            l_path l = cmd /\
            l_args l = flat_map (fun v => match fst (Glob w v) with
                                          | [] => [v]
                                          | ms => ms
                                          end) args.
Proof.
  intros Hok. unfold run, expandGlob. rewrite expandGlob_go_ok by exact Hok.
  cbn. eexists. split; [reflexivity|]. split; reflexivity.
Qed.

Lemma run_globs_each_arg_witness :
  (forall v, In v ["a"; "*.go"; "*.xyz"] -> snd (Glob demo_world v) = ErrNil) /\
  exists l, r_launched (run demo_world ∅ "*.go" ["a"; "*.go"; "*.xyz"]) = Some l /\
            l_path l = "*.go" /\
            l_args l = ["a"; "a.go"; "b.go"; "*.xyz"].
Proof.
  assert (Hok : forall v, In v ["a"; "*.go"; "*.xyz"] -> snd (Glob demo_world v) = ErrNil).
  { intros v [<-|[<-|[<-|[]]]]; reflexivity. }
  split; [exact Hok|].
  destruct (run_globs_each_arg demo_world ∅ "*.go" _ Hok) as (l & HL & Hp & Ha).
  exists l. split; [exact HL|]. split; [exact Hp|]. rewrite Ha. reflexivity.
Defined.

(** C7: variables are expanded before globs: every argument the command
    receives comes from [glob_arg] of the [$VAR]-expanded argument. *)
Theorem Exec_vars_before_globs w env cmd h args l :
  slice_ok h args ->
  e_launched (Exec w env cmd h args) = Some l ->
  l_args l = flat_map (fun a => glob_arg (Glob w) (os_Expand a (expand_fn w env)))
                      (slice_read h args).
Proof.
  intros Hok HL.
  destruct (Exec_launched w env cmd h args l HL) as (_ & Hargs & Hnil & _).
  rewrite Hargs. unfold expandGlob in *. rewrite (expandGlob_go_nil_err _ _ _ Hnil).
  rewrite Exec_heap, expand_args_read by exact Hok. cbn.
  induction (slice_read h args) as [|a rest IH]; cbn; congruence.
Qed.

Lemma Exec_vars_before_globs_witness :
  slice_ok demo_heap demo_args /\
  e_launched (Exec demo_world ∅ "ok" demo_heap demo_args)
    = Some (mkLaunch "ok" ["baz"; "a.go"; "b.go"; "*.xyz"] ["FOO=baz"]) /\
  ["baz"; "a.go"; "b.go"; "*.xyz"]
  = flat_map (fun a => glob_arg (Glob demo_world) (os_Expand a (expand_fn demo_world ∅)))
             (slice_read demo_heap demo_args).
Proof.
  assert (Hok : slice_ok demo_heap demo_args) by (split; vm_compute; lia).
  assert (HL : e_launched (Exec demo_world ∅ "ok" demo_heap demo_args)
               = Some (mkLaunch "ok" ["baz"; "a.go"; "b.go"; "*.xyz"] ["FOO=baz"]))
    by reflexivity.
  split; [exact Hok|]. split; [exact HL|].
  exact (Exec_vars_before_globs demo_world ∅ "ok" demo_heap demo_args _ Hok HL).
Defined.

(** ** Captured output *)

Lemma substring_full (u : string) : String.substring 0 (String.length u) u = u.
Proof. induction u as [|c u IH]; simpl; [reflexivity | now rewrite IH]. Qed.

Lemma substring_suffix (t u : string) :
  String.substring (String.length t) (String.length u) (t +:+ u) = u.
Proof. induction t as [|c t IH]; simpl; [apply substring_full | exact IH]. Qed.

Lemma substring_split (n : nat) (s : string) :
  n <= String.length s ->
  String.substring 0 n s +:+ String.substring n (String.length s - n) s = s.
Proof.
  revert n. induction s as [|c s IH]; intros n Hn.
  - destruct n; reflexivity.
  - destruct n as [|n].
    + change (String.substring 0 (String.length (String c s)) (String c s) = String c s).
      apply substring_full.
    + cbn [String.length] in Hn.
      change (String c (String.substring 0 n s)
              +:+ String.substring n (String.length s - n) s = String c s).
      rewrite append_cons, IH by lia. reflexivity.
Qed.

Lemma TrimSuffix_newline (t : string) : TrimSuffix (t +:+ newline) newline = t.
Proof.
  unfold TrimSuffix, HasSuffix.
  rewrite length_append.
  replace (String.length t + String.length newline - String.length newline)
    with (String.length t) by lia.
  rewrite substring_suffix, substring_prefix, String.eqb_refl.
  replace (Nat.leb (String.length newline) (String.length t + String.length newline))
    with true by (symmetry; apply Nat.leb_le; lia).
  reflexivity.
Qed.

Lemma TrimSuffix_no_newline (c : string) :
  (forall t, c <> t +:+ newline) -> TrimSuffix c newline = c.
Proof.
  intros Hc. unfold TrimSuffix.
  destruct (HasSuffix c newline) eqn:E; [|reflexivity].
  exfalso. unfold HasSuffix in E. apply andb_true_iff in E as [El Eq].
  apply Nat.leb_le in El. apply String.eqb_eq in Eq.
  apply (Hc (String.substring 0 (String.length c - String.length newline) c)).
  pose proof (substring_split (String.length c - String.length newline) c ltac:(lia)) as Hs.
  replace (String.length c - (String.length c - String.length newline))
    with (String.length newline) in Hs by lia.
  rewrite Eq in Hs. symmetry. exact Hs.
Qed.

(** C8: [Output] and [OutputWith] return the captured stdout with exactly
    one trailing newline removed when there is one, and unchanged when there
    is none. *)
Theorem OutputWith_trims_one_newline w env cmd h args :
  Output w cmd h args = OutputWith w ∅ cmd h args /\
  let c := e_stdout (Exec w env cmd h args) in
  let out := (OutputWith w env cmd h args).1.2 in
  (forall t, c = t +:+ newline -> out = t) /\
  ((forall t, c <> t +:+ newline) -> out = c).
Proof.
  split; [reflexivity|]. cbn zeta. unfold OutputWith. cbn [fst snd]. split.
  - intros t ->. apply TrimSuffix_newline.
  - apply TrimSuffix_no_newline.
Qed.

(** [hello\n] gives [hello]; [hello\n\n] gives [hello\n]. *)
Example Output_hello :
  TrimSuffix ("hello" +:+ newline) newline = "hello" /\
  (Output demo_world "ok" demo_heap demo_args).1.2 = "hello" +:+ newline.
Proof. split; reflexivity. Qed.

(** ** Malformed patterns *)

Lemma expandGlob_go_err (glob : string -> list string * goerr) (pre post acc : list string) (a : string) :
  (forall v, In v pre -> snd (glob v) = ErrNil) ->
  snd (glob a) <> ErrNil ->
  expandGlob_go glob (pre ++ a :: post) acc = ([], snd (glob a)).
Proof.
  revert acc. induction pre as [|v pre IH]; intros acc Hpre Ha; cbn.
  - destruct (glob a) as [ms err]. cbn in Ha |- *.
    destruct err; cbn; congruence.
  - pose proof (Hpre v (or_introl eq_refl)) as Hv.
    destruct (glob v) as [ms err]. cbn in Hv |- *. subst err. cbn.
    apply IH; [intros; apply Hpre; now right | exact Ha].
Qed.

(** C9 fails in one point: [Exec] does not return the glob error itself
    ([filepath.ErrBadPattern]) but a new "failed to run" error built from
    its text. *)
Lemma Exec_bad_pattern_counterexample :
  let r := Exec demo_world ∅ "ok" bad_heap bad_args in
  e_launched r = None /\ e_ran r = false /\ e_err r <> ErrBadPattern.
Proof. cbn zeta. split; [reflexivity|]. split; [reflexivity | discriminate]. Qed.

(** C9, as the code has it: when the expanded argument [a] is the first
    malformed pattern, [Exec] launches nothing, reports ran=false, and
    returns a new error whose text is
    [failed to run "<cmd> <args>: <glob error text>"]. *)
Theorem Exec_glob_error_aborts w env cmd h args pre a post :
  slice_read (e_heap (Exec w env cmd h args)) args = pre ++ a :: post ->
  (forall v, In v pre -> snd (Glob w v) = ErrNil) ->
  snd (Glob w a) <> ErrNil ->
  let r := Exec w env cmd h args in
  e_launched r = None /\ e_ran r = false /\
  e_err r = fmt_Errorf (launch_msg (os_Expand cmd (expand_fn w env)) (pre ++ a :: post)
                                   (snd (Glob w a))) /\
  e_stdout r = "".
Proof.
  intros Hargs Hpre Ha. cbn zeta.
  assert (Eg : expandGlob (Glob w) (pre ++ a :: post) = ([], snd (Glob w a)))
    by (now apply expandGlob_go_err).
  destruct (e_launched (Exec w env cmd h args)) as [l|] eqn:HL.
  - exfalso. destruct (Exec_launched w env cmd h args l HL) as (_ & _ & Hnil & _).
    rewrite Hargs, Eg in Hnil. exact (Ha Hnil).
  - destruct (Exec_not_launched w env cmd h args HL) as (_ & Hran & Herr & Hout).
    rewrite Hargs, Eg in Herr. cbn in Herr. auto.
Qed.

Lemma Exec_glob_error_aborts_witness :
  slice_read (e_heap (Exec demo_world ∅ "ok" bad_heap bad_args)) bad_args = ["baz"] ++ "[" :: [] /\
  (forall v, In v ["baz"] -> snd (Glob demo_world v) = ErrNil) /\
  snd (Glob demo_world "[") <> ErrNil /\
  e_launched (Exec demo_world ∅ "ok" bad_heap bad_args) = None /\
  e_ran (Exec demo_world ∅ "ok" bad_heap bad_args) = false.
Proof.
  assert (H1 : slice_read (e_heap (Exec demo_world ∅ "ok" bad_heap bad_args)) bad_args
               = ["baz"] ++ "[" :: []) by reflexivity.
  assert (H2 : forall v, In v ["baz"] -> snd (Glob demo_world v) = ErrNil)
    by (intros v [<-|[]]; reflexivity).
  assert (H3 : snd (Glob demo_world "[") <> ErrNil) by discriminate.
  destruct (Exec_glob_error_aborts demo_world ∅ "ok" bad_heap bad_args ["baz"] "[" [] H1 H2 H3)
    as (HL & Hran & _).
  repeat split; assumption.
Defined.

(** ** Aliasing of the argument slice *)

(** C10: [Exec] writes the expanded arguments back into the caller's slice
    (not into a copy), so the caller's backing array holds the expanded
    strings afterwards; in particular a [RunCmd] closure called with no
    extra arguments passes its baked-in slice itself ([append] of nothing
    returns it), and the baked-in arguments are replaced by their expansions
    for every later call. *)
Theorem Exec_updates_args_in_place w env cmd h args b :
  slice_ok h args -> slice_ok h b ->
  slice_read (e_heap (Exec w env cmd h args)) args
  = map (fun a => os_Expand a (expand_fn w env)) (slice_read h args) /\
  slice_read (fst (RunCmd w cmd b h nil_slice)) b
  = map (fun a => os_Expand a (expand_fn w ∅)) (slice_read h b).
Proof.
  intros Hargs Hb. split.
  - rewrite Exec_heap. now apply expand_args_read.
  - unfold RunCmd. change (slice_read h nil_slice) with (@nil string).
    unfold go_append. cbn [length].
    destruct Hb as [Hlc Hcap].
    replace (Nat.leb (s_len b + 0) (s_cap b)) with true
      by (symmetry; apply Nat.leb_le; lia).
    cbn [write_from].
    replace (mkSlice (s_arr b) (s_off b) (s_len b + 0) (s_cap b)) with b
      by (destruct b; cbn; f_equal; lia).
    unfold Run, RunWith. cbn [fst].
    rewrite Exec_heap. apply expand_args_read. exact (conj Hlc Hcap).
Qed.

Lemma Exec_updates_args_in_place_witness :
  slice_ok demo_heap demo_args /\
  slice_read (fst (RunCmd demo_world "ok" demo_args demo_heap nil_slice)) demo_args
  = map (fun a => os_Expand a (expand_fn demo_world ∅)) (slice_read demo_heap demo_args).
Proof.
  assert (Hok : slice_ok demo_heap demo_args) by (split; vm_compute; lia).
  split; [exact Hok|].
  apply (Exec_updates_args_in_place demo_world ∅ "ok" demo_heap demo_args demo_args Hok Hok).
Defined.

(** [RunCmd("ok", "$FOO", "*.go", "*.xyz")] called with no extra arguments
    while [FOO=baz] bakes [baz] into the closure: after [FOO] becomes [qux]
    the next call still runs with [baz].  Called with an extra argument,
    [append] copies into a fresh array and the baked-in slice is left as
    it was. *)
Example RunCmd_baked_args_mutated :
  let h1 := fst (RunCmd demo_world "ok" demo_args demo_heap nil_slice) in
  slice_read h1 demo_args = ["baz"; "*.go"; "*.xyz"] /\
  option_map l_args (e_launched (Exec qux_world ∅ "ok" h1 demo_args))
  = Some ["baz"; "a.go"; "b.go"; "*.xyz"] /\
  slice_read (fst (RunCmd demo_world "ok" demo_args extra_heap extra_args)) demo_args
  = ["$FOO"; "*.go"; "*.xyz"].
Proof. cbn zeta. split; [|split]; reflexivity. Qed.

(* ================================================================== *)
(** * Further properties of the package *)

(** ** The exit code of a failure is never 0 *)

(** X1: [Exec] returns an error whose [ExitStatus] is 0 only when it returns no
    error at all: a failed command always maps to a nonzero exit code (its
    own, or the generic 1 when it did not run). *)
Theorem Exec_exit_status_zero_iff_nil w env cmd h args :
  (forall l, e_launched (Exec w env cmd h args) = Some l -> outcome_ok (Start w l)) ->
  ExitStatus (e_err (Exec w env cmd h args)) = 0%Z <-> e_err (Exec w env cmd h args) = ErrNil.
Proof.
  intros Hok. split; [|intros ->; reflexivity].
  destruct (e_launched (Exec w env cmd h args)) as [l|] eqn:HL.
  - specialize (Hok l eq_refl).
    destruct (Exec_launched w env cmd h args l HL) as (_ & _ & _ & _ & Herr & _).
    rewrite Herr. destruct (Start w l) as [e|ws out cerr]; cbn in Hok |- *.
    + destruct e as [|ws|c m|m st wr]; cbn; try contradiction; try reflexivity;
        discriminate.
    + destruct (ws_Success ws) eqn:Es.
      * destruct cerr as [|ws'|c m|m st wr]; cbn; try contradiction; try reflexivity;
          discriminate.
      * destruct ws as [n|sig]; cbn; [|discriminate].
        cbn in Es. intros Hn. subst n. discriminate Es.
  - destruct (Exec_not_launched w env cmd h args HL) as (_ & _ & Herr & _).
    rewrite Herr. discriminate.
Qed.

Lemma Exec_exit_status_zero_iff_nil_witness :
  (forall l, e_launched (Exec demo_world ∅ "nope" demo_heap demo_args) = Some l ->
             outcome_ok (Start demo_world l)) /\
  (ExitStatus (e_err (Exec demo_world ∅ "nope" demo_heap demo_args)) = 0%Z <->
   e_err (Exec demo_world ∅ "nope" demo_heap demo_args) = ErrNil).
Proof.
  assert (Hok : forall l, e_launched (Exec demo_world ∅ "nope" demo_heap demo_args) = Some l ->
                          outcome_ok (Start demo_world l)).
  { intros l HL. vm_compute in HL. injection HL as <-. vm_compute. exact I. }
  split; [exact Hok|].
  exact (Exec_exit_status_zero_iff_nil demo_world ∅ "nope" demo_heap demo_args Hok).
Defined.

(** ** [expandGlob] *)

Lemma expandGlob_go_nil_all (glob : string -> list string * goerr) (vs acc : list string) :
  snd (expandGlob_go glob vs acc) = ErrNil -> forall v, In v vs -> snd (glob v) = ErrNil.
Proof.
  revert acc. induction vs as [|v vs IH]; intros acc H u Hu; [destruct Hu|]. cbn in H.
  destruct (glob v) as [ms err] eqn:Eg.
  destruct (is_nil err) eqn:En; cbn in H.
  - destruct Hu as [<-|Hu].
    + rewrite Eg. cbn. now destruct err.
    + exact (IH _ H u Hu).
  - subst err. discriminate En.
Qed.

(** X2: [expandGlob] fails exactly when the pattern of some argument is
    malformed; it then returns no arguments (a nil slice) and the error of
    the first such argument, without looking at the later ones. *)
Theorem expandGlob_error_first (glob : string -> list string * goerr) (vs : list string) :
  (snd (expandGlob glob vs) = ErrNil <-> forall v, In v vs -> snd (glob v) = ErrNil) /\
  (forall pre a post, vs = pre ++ a :: post ->
     (forall v, In v pre -> snd (glob v) = ErrNil) -> snd (glob a) <> ErrNil ->
     expandGlob glob vs = ([], snd (glob a))).
Proof.
  split.
  - split; [apply expandGlob_go_nil_all|].
    intros Hok. unfold expandGlob. now rewrite expandGlob_go_ok.
  - intros pre a post -> Hpre Ha. now apply expandGlob_go_err.
Qed.

Lemma length_flat_map_glob_arg (glob : string -> list string * goerr) (vs : list string) :
  length vs <= length (flat_map (glob_arg glob) vs).
Proof.
  induction vs as [|v vs IH]; cbn; [lia|]. rewrite length_app.
  unfold glob_arg at 1. destruct (fst (glob v)); cbn; lia.
Qed.

(** X3: A successful [expandGlob] never drops an argument: it returns at least
    as many arguments as it was given, and exactly the arguments it was
    given when no pattern matches anything. *)
Theorem expandGlob_keeps_args (glob : string -> list string * goerr) (vs : list string) :
  snd (expandGlob glob vs) = ErrNil ->
  length vs <= length (fst (expandGlob glob vs)) /\
  ((forall v, In v vs -> fst (glob v) = []) -> fst (expandGlob glob vs) = vs).
Proof.
  intros Hnil. unfold expandGlob in *.
  rewrite (expandGlob_go_nil_err _ _ _ Hnil). cbn. split; [apply length_flat_map_glob_arg|].
  intros Hno. clear Hnil. induction vs as [|v vs IH]; [reflexivity|]. cbn.
  unfold glob_arg at 1. rewrite (Hno v (or_introl eq_refl)). cbn. f_equal.
  apply IH. intros u Hu. apply Hno. now right.
Qed.

Lemma expandGlob_keeps_args_witness :
  snd (expandGlob (Glob demo_world) ["$x"; "*.xyz"]) = ErrNil /\
  fst (expandGlob (Glob demo_world) ["$x"; "*.xyz"]) = ["$x"; "*.xyz"].
Proof.
  assert (Hnil : snd (expandGlob (Glob demo_world) ["$x"; "*.xyz"]) = ErrNil) by reflexivity.
  split; [exact Hnil|].
  apply (expandGlob_keeps_args (Glob demo_world) _ Hnil).
  intros v [<-|[<-|[]]]; reflexivity.
Defined.

(** ** What the in-place expansion of [Exec] touches *)

Lemma arr_of_slice_set_ne h s i v a :
  a <> s_arr s -> arr_of (slice_set h s i v) a = arr_of h a.
Proof. intros Ha. unfold arr_of, slice_set. cbn. now rewrite lookup_insert_ne. Qed.

Lemma expand_args_other (m : string -> string) (h : heap) (s : slice) (a : nat) :
  a <> s_arr s -> arr_of (expand_args m h s) a = arr_of h a.
Proof.
  intros Ha. unfold expand_args. generalize (seq 0 (s_len s)) as l.
  intros l. revert h. induction l as [|i l IH]; intros h; [reflexivity|].
  cbn [fold_left]. rewrite IH. now apply arr_of_slice_set_ne.
Qed.




(** ** Text without ['$'] is passed through *)

Lemma expand_go_no_dollar (f : nat) (m : string -> string) (s : string) :
  no_dollar s = true -> expand_go f m s = s.
Proof.
  revert s. induction f as [|f IH]; intros s Hs; [reflexivity|].
  destruct s as [|c r]; [reflexivity|]. cbn in Hs.
  apply andb_prop in Hs as [Hc Hr]. apply negb_true_iff in Hc.
  cbn [expand_go]. destruct r as [|c' r']; [reflexivity|].
  rewrite Hc. f_equal. now apply IH.
Qed.

(** X5: A command name or argument without a ['$'] is not changed by the
    variable expansion of [Exec], whatever the environment: the command is
    launched under that very name, and each argument without a ['$'] keeps
    its value in the caller's slice, whatever the other arguments hold. *)
Theorem Exec_no_dollar_unchanged w env cmd h args :
  slice_ok h args ->
  (no_dollar cmd = true ->
   forall l, e_launched (Exec w env cmd h args) = Some l -> l_path l = cmd) /\
  (forall i a, slice_read h args !! i = Some a -> no_dollar a = true ->
   slice_read (e_heap (Exec w env cmd h args)) args !! i = Some a).
Proof.
  intros Hok. split.
  - intros Hc l HL. rewrite (proj1 (Exec_launched w env cmd h args l HL)).
    now apply expand_go_no_dollar.
  - intros i a Hi Ha. rewrite Exec_heap, expand_args_read by exact Hok.
    rewrite list_lookup_fmap, Hi. cbn. f_equal. now apply expand_go_no_dollar.
Qed.

(** In [$FOO *.go *.xyz], the argument [*.go] is left as it is. *)
Lemma Exec_no_dollar_unchanged_witness :
  slice_ok demo_heap demo_args /\ slice_read demo_heap demo_args !! 1 = Some "*.go" /\
  slice_read (e_heap (Exec demo_world ∅ "ok" demo_heap demo_args)) demo_args !! 1 = Some "*.go".
Proof.
  assert (Hok : slice_ok demo_heap demo_args) by (split; vm_compute; lia).
  assert (Hi : slice_read demo_heap demo_args !! 1 = Some "*.go") by reflexivity.
  split; [exact Hok|]. split; [exact Hi|].
  exact (proj2 (Exec_no_dollar_unchanged demo_world ∅ "ok" demo_heap demo_args Hok) 1 "*.go"
           Hi eq_refl).
Defined.

(** ** A ['$'] that starts no name *)

Lemma getShellName_empty_brace (rest : string) :
  getShellName (String "{"%char (String "}"%char rest)) = (EmptyString, 2).
Proof. destruct rest; reflexivity. Qed.

Lemma getShellName_open_brace (r : string) :
  index_close r = None -> getShellName (String "{"%char r) = (EmptyString, 1).
Proof.
  intros Hcl. destruct r as [|c1 [|c2 r']]; [reflexivity| |].
  - cbn [getShellName]. rewrite Ascii.eqb_refl. cbv zeta. now rewrite Hcl.
  - assert (Hc2 : Ascii.eqb c2 "}"%char = false).
    { cbn [index_close] in Hcl. destruct (Ascii.eqb c1 "}"%char); [discriminate|].
      destruct (Ascii.eqb c2 "}"%char); [discriminate|reflexivity]. }
    cbn [getShellName]. rewrite Ascii.eqb_refl, Hc2, andb_false_r. cbv zeta.
    now rewrite Hcl.
Qed.

Lemma special_not_brace (c : ascii) :
  isShellSpecialVar c = true -> Ascii.eqb c "{"%char = false.
Proof.
  intros Hs. destruct (Ascii.eqb_spec c "{"%char) as [->|]; [discriminate|reflexivity].
Qed.

(** X6: The expansion [Exec] applies to its command and arguments
    ([os.Expand] with [expand]) treats a ['$'] that does not start a
    well-formed name as follows: a ['$'] followed by one of the special
    characters [*#$@!?-0123456789] names that one-character variable; a
    ['$'] followed by any other byte that is neither ['{'] nor a letter,
    digit or ['_'] is kept as it is; the empty reference [${}] and an
    unterminated [${] are dropped, with nothing looked up. *)
Theorem os_Expand_dollar_edges (m : string -> string) :
  (forall c rest, isShellSpecialVar c = true ->
     os_Expand (String "$"%char (String c rest)) m
     = m (String c EmptyString) +:+ os_Expand rest m) /\
  (forall c rest, Ascii.eqb c "{"%char = false -> isShellSpecialVar c = false ->
     isAlphaNum c = false ->
     os_Expand (String "$"%char (String c rest)) m
     = String "$"%char (os_Expand (String c rest) m)) /\
  (forall rest, os_Expand (String "$"%char (String "{"%char (String "}"%char rest))) m
                = os_Expand rest m) /\
  (forall rest, index_close rest = None ->
     os_Expand (String "$"%char (String "{"%char rest)) m = os_Expand rest m).
Proof.
  split; [|split; [|split]].
  - intros c rest Hs. unfold os_Expand at 1. cbn [String.length].
    rewrite expand_go_dollar. cbn [getShellName].
    rewrite special_not_brace, Hs by exact Hs. cbv beta iota zeta.
    cbn [String.eqb str_drop]. f_equal. apply os_Expand_fuel. lia.
  - intros c rest Hb Hs Ha. unfold os_Expand at 1. cbn [String.length].
    rewrite expand_go_dollar. cbn [getShellName]. rewrite Hb, Hs.
    cbn [alnum_prefix]. rewrite Ha. cbv beta iota zeta.
    cbn [String.eqb String.length Nat.ltb Nat.leb str_drop]. reflexivity.
  - intros rest. unfold os_Expand at 1. cbn [String.length].
    rewrite expand_go_dollar, getShellName_empty_brace. cbv beta iota zeta.
    cbn [String.eqb Nat.ltb Nat.leb str_drop]. rewrite append_nil_l.
    apply os_Expand_fuel. lia.
  - intros rest Hcl. unfold os_Expand at 1. cbn [String.length].
    rewrite expand_go_dollar, getShellName_open_brace by exact Hcl.
    cbv beta iota zeta. cbn [String.eqb Nat.ltb Nat.leb str_drop]. rewrite append_nil_l.
    apply os_Expand_fuel. lia.
Qed.

(** ** What the errors of [Exec] let a caller see *)

Lemma Exec_err_cases w env cmd h args :
  e_err (Exec w env cmd h args) = ErrNil \/
  (exists c msg, e_err (Exec w env cmd h args) = FatalErr c msg) \/
  (exists msg, e_err (Exec w env cmd h args) = OtherErr msg None None).
Proof.
  unfold Exec. cbn zeta. destruct (is_nil _); [now left|].
  destruct (r_ran _); cbn [e_err]; right; [left|right]; eauto.
Qed.

(** X7: The error [Exec] (so [Run], [RunWith], [Output], ...) returns does not
    let a caller recover the underlying error.  [CmdRan] of it is true only
    when there is no error at all, so it is false even when the command ran
    and exited with a nonzero code.  It is never an [*exec.ExitError].  When
    the command did not run, the error unwraps to nothing and has no exit
    status method, because the [fmt.Errorf] uses [%v] and not [%w]. *)
Theorem Exec_err_opaque w env cmd h args :
  let e := e_err (Exec w env cmd h args) in
  (CmdRan e = true <-> e = ErrNil) /\ (forall ws, e <> ExitError ws) /\
  (e_ran (Exec w env cmd h args) = false -> Unwrap e = None /\ as_exitStatus e = None).
Proof.
  cbv zeta. split; [|split].
  - destruct (Exec_err_cases w env cmd h args) as [->|[(c & msg & ->)|(msg & ->)]];
      split; try discriminate; reflexivity.
  - destruct (Exec_err_cases w env cmd h args) as [->|[(c & msg & ->)|(msg & ->)]];
      discriminate.
  - unfold Exec. cbn zeta. destruct (is_nil _); cbn [e_ran]; [discriminate|].
    destruct (r_ran _); cbn [e_ran e_err]; [discriminate|]. split; reflexivity.
Qed.


(** ** The closures of [RunCmd] and [OutCmd] *)

Lemma write_from_window (s : slice) (xs : list string) :
  forall h i A B C,
  arr_of h (s_arr s) = A ++ B ++ C -> length A = s_off s + i -> length B = length xs ->
  arr_of (write_from h s i xs) (s_arr s) = A ++ xs ++ C.
Proof.
  induction xs as [|x xs IH]; intros h i A B C Harr HA HB.
  - destruct B; [exact Harr|discriminate].
  - destruct B as [|b B]; [discriminate|]. cbn [write_from].
    replace (A ++ (x :: xs) ++ C) with ((A ++ [x]) ++ xs ++ C)
      by (now rewrite <- app_assoc).
    apply (IH _ (S i) (A ++ [x]) B C).
    + rewrite arr_of_slice_set, Harr, insert_app_r_alt by lia.
      rewrite HA, Nat.sub_diag. cbn. now rewrite <- app_assoc.
    + rewrite length_app. cbn. lia.
    + cbn in HB. lia.
Qed.

Lemma write_from_other (s : slice) (xs : list string) :
  forall h i a, a <> s_arr s -> arr_of (write_from h s i xs) a = arr_of h a.
Proof.
  induction xs as [|x xs IH]; intros h i a Ha; [reflexivity|]. cbn [write_from].
  rewrite IH by exact Ha. now apply arr_of_slice_set_ne.
Qed.

Lemma go_append_fits (h : heap) (s : slice) (xs : list string) :
  slice_ok h s -> s_len s + length xs <= s_cap s ->
  go_append h s xs
  = (write_from h s (s_len s) xs, mkSlice (s_arr s) (s_off s) (s_len s + length xs) (s_cap s)) /\
  let s1 := mkSlice (s_arr s) (s_off s) (s_len s + length xs) (s_cap s) in
  let h1 := write_from h s (s_len s) xs in
  slice_ok h1 s1 /\ slice_read h1 s1 = slice_read h s ++ xs /\
  arr_of h1 (s_arr s)
  = take (s_off s + s_len s) (arr_of h (s_arr s)) ++ xs
    ++ drop (s_off s + s_len s + length xs) (arr_of h (s_arr s)).
Proof.
  intros [Hlc Hcap] Hfit. split.
  { unfold go_append. replace (Nat.leb (s_len s + length xs) (s_cap s)) with true
      by (symmetry; apply Nat.leb_le; lia). reflexivity. }
  cbv zeta.
  set (arr := arr_of h (s_arr s)) in *.
  set (P := take (s_off s) arr). set (r1 := drop (s_off s) arr).
  set (Q := take (s_len s) r1). set (r2 := drop (s_len s) r1).
  set (B := take (length xs) r2). set (C := drop (length xs) r2).
  assert (Harr : arr = (P ++ Q) ++ B ++ C)
    by (unfold P, Q, B, C, r2, r1; rewrite <- app_assoc, (take_drop (length xs)),
          (take_drop (s_len s)), take_drop; reflexivity).
  assert (HP : length P = s_off s) by (unfold P; rewrite length_take; lia).
  assert (HQ : length Q = s_len s)
    by (unfold Q, r1; rewrite length_take, length_drop; lia).
  assert (HB : length B = length xs)
    by (unfold B, r2, r1; rewrite length_take, !length_drop; lia).
  assert (Hw : arr_of (write_from h s (s_len s) xs) (s_arr s) = (P ++ Q) ++ xs ++ C).
  { apply (write_from_window s xs h (s_len s) (P ++ Q) B C); [exact Harr| |exact HB].
    rewrite length_app. lia. }
  assert (HPQ : take (s_off s + s_len s) arr = P ++ Q).
  { rewrite Harr, take_app_length'; [reflexivity|]. rewrite length_app. lia. }
  assert (HC : drop (s_off s + s_len s + length xs) arr = C).
  { rewrite Harr, app_assoc, drop_app_length'; [reflexivity|].
    rewrite !length_app. lia. }
  assert (Hread : slice_read h s = Q).
  { unfold slice_read. fold arr. reflexivity. }
  split; [|split].
  - unfold slice_ok. cbn [s_len s_cap s_off s_arr]. rewrite Hw.
    split; [lia|]. rewrite !length_app.
    assert (length arr = length P + length Q + length B + length C)
      by (rewrite Harr, !length_app; lia). lia.
  - unfold slice_read at 1. cbn [s_len s_off s_arr]. rewrite Hw, Hread.
    rewrite <- app_assoc, drop_app_length' by (symmetry; exact HP).
    rewrite app_assoc, take_app_length'; [reflexivity|]. rewrite length_app. lia.
  - rewrite Hw, HPQ, HC. now rewrite <- app_assoc.
Qed.

Lemma go_append_realloc (h : heap) (s : slice) (xs : list string) :
  s_cap s < s_len s + length xs ->
  go_append h s xs = alloc h (slice_read h s ++ xs).
Proof.
  intros H. unfold go_append.
  replace (Nat.leb (s_len s + length xs) (s_cap s)) with false
    by (symmetry; apply Nat.leb_gt; lia). reflexivity.
Qed.

Lemma alloc_read (h : heap) (xs : list string) :
  slice_ok (fst (alloc h xs)) (snd (alloc h xs)) /\
  slice_read (fst (alloc h xs)) (snd (alloc h xs)) = xs /\
  s_arr (snd (alloc h xs)) = h_next h /\
  (forall a, a <> h_next h -> arr_of (fst (alloc h xs)) a = arr_of h a).
Proof.
  unfold alloc, slice_ok, slice_read, arr_of. cbn.
  rewrite lookup_insert_eq. cbn. split; [lia|]. split.
  - now rewrite take_ge.
  - split; [reflexivity|]. intros a Ha. now rewrite lookup_insert_ne.
Qed.

Lemma go_append_ok (h : heap) (s : slice) (xs : list string) :
  slice_ok h s ->
  slice_ok (fst (go_append h s xs)) (snd (go_append h s xs)) /\
  slice_read (fst (go_append h s xs)) (snd (go_append h s xs)) = slice_read h s ++ xs.
Proof.
  intros Hok. destruct (Nat.le_gt_cases (s_len s + length xs) (s_cap s)) as [Hf|Hr].
  - destruct (go_append_fits h s xs Hok Hf) as (-> & Hok1 & Hr1 & _). cbn. split; assumption.
  - rewrite go_append_realloc by exact Hr.
    destruct (alloc_read h (slice_read h s ++ xs)) as (H1 & H2 & _). split; assumption.
Qed.

(** X9: A closure returned by [RunCmd(cmd, args...)] or [OutCmd(cmd, args...)]
    and called with [args2...] behaves as [Run] (resp. [Output]) called on
    one slice whose elements are the baked-in arguments followed by
    [args2], in that order. *)
Theorem RunCmd_OutCmd_append w cmd b h a2 :
  slice_ok h b ->
  exists h1 s,
    slice_ok h1 s /\ slice_read h1 s = slice_read h b ++ slice_read h a2 /\
    RunCmd w cmd b h a2 = Run w cmd h1 s /\ OutCmd w cmd b h a2 = Output w cmd h1 s.
Proof.
  intros Hok. destruct (go_append_ok h b (slice_read h a2) Hok) as [H1 H2].
  exists (fst (go_append h b (slice_read h a2))), (snd (go_append h b (slice_read h a2))).
  split; [exact H1|]. split; [exact H2|].
  unfold RunCmd, OutCmd. destruct (go_append h b (slice_read h a2)). split; reflexivity.
Qed.

Lemma RunCmd_OutCmd_append_witness :
  slice_ok extra_heap demo_args /\
  exists h1 s,
    slice_ok h1 s /\ slice_read h1 s = slice_read extra_heap demo_args ++ slice_read extra_heap extra_args /\
    RunCmd demo_world "ok" demo_args extra_heap extra_args = Run demo_world "ok" h1 s /\
    OutCmd demo_world "ok" demo_args extra_heap extra_args = Output demo_world "ok" h1 s.
Proof.
  assert (Hok : slice_ok extra_heap demo_args) by (split; vm_compute; lia).
  split; [exact Hok|].
  exact (RunCmd_OutCmd_append demo_world "ok" demo_args extra_heap extra_args Hok).
Defined.

(** X10: What a call of a [RunCmd] closure does to the backing array of its
    baked-in arguments.  When the call's arguments do not fit in the
    spare capacity, [append] copies everything into a fresh array and the
    baked-in array is left untouched.  When they fit, the call's
    arguments are written into that spare capacity, and after the call
    the array holds the expanded baked-in arguments followed by the
    expanded call arguments, in place, where every other alias of it can
    see them. *)
Theorem RunCmd_baked_array w cmd b h a2 :
  slice_ok h b -> s_arr b < h_next h ->
  (s_cap b < s_len b + length (slice_read h a2) ->
   arr_of (fst (RunCmd w cmd b h a2)) (s_arr b) = arr_of h (s_arr b)) /\
  (s_len b + length (slice_read h a2) <= s_cap b ->
   take (s_len b + length (slice_read h a2))
        (drop (s_off b) (arr_of (fst (RunCmd w cmd b h a2)) (s_arr b)))
   = map (fun a => os_Expand a (expand_fn w ∅)) (slice_read h b ++ slice_read h a2)).
Proof.
  intros Hok Hnext. split.
  - intros Hr. unfold RunCmd. rewrite go_append_realloc by exact Hr.
    destruct (alloc_read h (slice_read h b ++ slice_read h a2)) as (_ & _ & Ha & Hoth).
    destruct (alloc h (slice_read h b ++ slice_read h a2)) as [h1 s] eqn:E.
    cbn in Ha, Hoth. unfold Run, RunWith. cbn [fst]. rewrite Exec_heap.
    rewrite expand_args_other by lia. apply Hoth. lia.
  - intros Hf. destruct (go_append_fits h b (slice_read h a2) Hok Hf) as (E & Hok1 & Hr1 & _).
    unfold RunCmd. rewrite E. unfold Run, RunWith. cbn [fst]. rewrite Exec_heap.
    rewrite <- Hr1. apply (expand_args_read _ _ _ Hok1).
Qed.

Lemma RunCmd_baked_array_witness :
  slice_ok extra_heap demo_args /\ s_arr demo_args < h_next extra_heap /\
  arr_of (fst (RunCmd demo_world "ok" demo_args extra_heap extra_args)) (s_arr demo_args)
  = arr_of extra_heap (s_arr demo_args).
Proof.
  assert (Hok : slice_ok extra_heap demo_args) by (split; vm_compute; lia).
  assert (Hn : s_arr demo_args < h_next extra_heap) by (vm_compute; lia).
  split; [exact Hok|]. split; [exact Hn|].
  apply (proj1 (RunCmd_baked_array demo_world "ok" demo_args extra_heap extra_args Hok Hn)).
  vm_compute. lia.
Defined.

(** ** The environment of the child *)

Lemma Exec_e_launched w env cmd h args :
  e_launched (Exec w env cmd h args)
  = r_launched (run w env (os_Expand cmd (expand_fn w env))
                    (slice_read (expand_args (expand_fn w env) h args) args)).
Proof.
  unfold Exec. cbn zeta. destruct (is_nil _); [reflexivity|].
  destruct (r_ran _); reflexivity.
Qed.

Lemma run_launched_env w env c argv l :
  r_launched (run w env c argv) = Some l ->
  l_env l = Environ w ++ map (fun kv => kv.1 +:+ "=" +:+ kv.2) (map_to_list env).
Proof.
  unfold run. destruct (expandGlob (Glob w) argv) as [ex err].
  destruct (is_nil err); cbn; [intros [= <-]; reflexivity | discriminate].
Qed.

Lemma str_index_app (c : ascii) (s t : string) :
  str_index c s = None ->
  str_index c (s +:+ t) = option_map (Nat.add (String.length s)) (str_index c t).
Proof.
  induction s as [|c' s IH]; cbn [str_index]; intros H.
  - rewrite append_nil_l. now destruct (str_index c t).
  - rewrite append_cons. cbn [str_index String.length].
    destruct (Ascii.eqb c' c); [discriminate|].
    destruct (str_index c s); [discriminate|]. rewrite IH by reflexivity.
    now destruct (str_index c t).
Qed.

Lemma env_key_entry (k v : string) :
  valid_key k = true -> env_key (k +:+ "=" +:+ v) = Some k.
Proof.
  intros Hk. unfold valid_key in Hk.
  destruct k as [|c r]; [discriminate|].
  apply andb_prop in Hk as [Hk _]. apply andb_prop in Hk as [_ He].
  destruct (str_index "="%char (String c r)) eqn:E; [discriminate|].
  unfold env_key, key_index. rewrite (str_index_app _ _ _ E).
  change (str_index "="%char ("=" +:+ v)) with (Some 0).
  cbn [option_map]. rewrite Nat.add_0_r. cbn [String.length option_map].
  f_equal. exact (substring_prefix (String c r) ("=" +:+ v)).
Qed.

Lemma no_nul_entry (k v : string) :
  valid_key k = true -> str_index nul v = None ->
  str_index nul (k +:+ "=" +:+ v) = None.
Proof.
  intros Hk Hv. unfold valid_key in Hk. apply andb_prop in Hk as [_ Hn].
  destruct (str_index nul k) eqn:E; [discriminate|].
  rewrite (str_index_app _ _ _ E).
  change (str_index nul ("=" +:+ v)) with (option_map S (str_index nul v)).
  now rewrite Hv.
Qed.

Section Dedup.
Variables (k : string) (kv0 : string).

Lemma dedup_loop_keeps (L : list string) :
  forall saw out err e, In e out -> In e (fst (dedup_loop saw out err L)).
Proof.
  induction L as [|kv L IH]; intros saw out err e He; [exact He|]. cbn [dedup_loop].
  destruct (str_index nul kv); [now apply IH|].
  destruct (key_index kv) as [i|].
  - destruct (bool_decide _); apply IH; [exact He|]. apply in_app_iff. now left.
  - apply IH. destruct (String.eqb kv ""); [exact He|]. apply in_app_iff. now left.
Qed.

Lemma dedup_loop_unique (L : list string) :
  forall saw out err, k ∈ saw ->
  (forall e, In e out -> env_key e = Some k -> e = kv0) ->
  forall e, In e (fst (dedup_loop saw out err L)) -> env_key e = Some k -> e = kv0.
Proof.
  induction L as [|kv L IH]; intros saw out err Hk Hout; [exact Hout|]. cbn [dedup_loop].
  destruct (str_index nul kv); [now apply IH|].
  destruct (key_index kv) as [i|] eqn:Ei.
  - destruct (bool_decide _) eqn:Eb; [now apply IH|].
    apply bool_decide_eq_false in Eb.
    apply IH; [set_solver|]. intros e He Hke. apply in_app_iff in He as [He|[<-|[]]].
    + now apply Hout.
    + unfold env_key in Hke. rewrite Ei in Hke. cbn in Hke. injection Hke as Hke.
      rewrite Hke in Eb. contradiction.
  - apply IH; [exact Hk|]. intros e He Hke.
    destruct (String.eqb kv ""); [now apply Hout|].
    apply in_app_iff in He as [He|[<-|[]]]; [now apply Hout|].
    unfold env_key in Hke. rewrite Ei in Hke. discriminate.
Qed.

Lemma dedup_loop_skip (P L : list string) :
  forall saw out err, k ∉ saw ->
  (forall e, In e out -> env_key e <> Some k) ->
  (forall e, In e P -> env_key e <> Some k) ->
  exists saw' out' err', dedup_loop saw out err (P ++ L) = dedup_loop saw' out' err' L /\
    (k ∉ saw') /\ (forall e, In e out' -> env_key e <> Some k).
Proof.
  induction P as [|kv P IH]; intros saw out err Hk Hout HP.
  { exists saw, out, err. auto. }
  assert (HP' : forall e, In e P -> env_key e <> Some k) by (intros e He; apply HP; now right).
  cbn [app dedup_loop].
  destruct (str_index nul kv); [now apply IH|].
  destruct (key_index kv) as [i|] eqn:Ei.
  - destruct (bool_decide _) eqn:Eb; [now apply IH|].
    assert (Hne : String.substring 0 i kv <> k).
    { intros Heq. apply (HP kv (or_introl eq_refl)). unfold env_key. rewrite Ei.
      cbn. now f_equal. }
    apply IH; [set_solver| |exact HP'].
    intros e He. apply in_app_iff in He as [He|[<-|[]]]; [now apply Hout|].
    apply HP. now left.
  - apply IH; [exact Hk| |exact HP'].
    intros e He. destruct (String.eqb kv ""); [now apply Hout|].
    apply in_app_iff in He as [He|[<-|[]]]; [now apply Hout|].
    apply HP. now left.
Qed.

Lemma dedup_loop_take (R : list string) saw out err :
  k ∉ saw -> str_index nul kv0 = None -> env_key kv0 = Some k ->
  dedup_loop saw out err (kv0 :: R) = dedup_loop ({[k]} ∪ saw) (out ++ [kv0]) err R.
Proof.
  intros Hk Hn He. cbn [dedup_loop]. rewrite Hn.
  unfold env_key in He. destruct (key_index kv0) as [i|]; [|discriminate].
  cbn in He. injection He as He. rewrite He, bool_decide_eq_false_2 by exact Hk.
  reflexivity.
Qed.

End Dedup.

(** X11: The environment the child started by [Exec] gets ([c.Env] as
    [run] builds it, then deduplicated by [os/exec], last entry wins): for
    an override [k] with value [v], the child gets the entry [k=v], and no
    other entry for the key [k]; an ambient entry for [k] is dropped.  This
    holds when the override keys are plain names (nonempty, without ['=']
    or NUL) and [v] has no NUL. *)
Theorem Exec_child_env w env cmd h args l k v :
  e_launched (Exec w env cmd h args) = Some l ->
  (forall k' v', env !! k' = Some v' -> valid_key k' = true) ->
  env !! k = Some v -> str_index nul v = None ->
  In (k +:+ "=" +:+ v) (child_env l) /\
  (forall e, In e (child_env l) -> env_key e = Some k -> e = k +:+ "=" +:+ v).
Proof.
  rewrite Exec_e_launched. intros HL Hvalid Hkv Hv. apply run_launched_env in HL.
  set (f := fun kv : string * string => kv.1 +:+ "=" +:+ kv.2).
  set (kv0 := k +:+ "=" +:+ v).
  assert (Hin : (k, v) ∈ map_to_list env) by now apply elem_of_map_to_list.
  apply list_elem_of_split in Hin as (l1 & l2 & Hsplit).
  assert (Hnd := NoDup_fst_map_to_list env). rewrite Hsplit in Hnd.
  rewrite fmap_app in Hnd. cbn in Hnd. apply NoDup_app in Hnd as (_ & Hdisj & Hnd2).
  apply NoDup_cons in Hnd2 as [Hk2 _].
  assert (Hrev : rev (l_env l) = rev (map f l2) ++ kv0 :: (rev (map f l1) ++ rev (Environ w))).
  { rewrite HL. fold f. rewrite Hsplit, map_app. cbn [map].
    rewrite !rev_app_distr. cbn [rev]. rewrite <- !app_assoc. reflexivity. }
  assert (HP : forall e, In e (rev (map f l2)) -> env_key e <> Some k).
  { intros e He. apply in_rev, in_map_iff in He as ([k' v'] & <- & Hin').
    assert (Hk'v' : env !! k' = Some v').
    { apply elem_of_map_to_list. rewrite Hsplit. apply list_elem_of_In.
      apply in_app_iff. right. now right. }
    unfold f. cbn [fst snd]. rewrite env_key_entry by exact (Hvalid _ _ Hk'v').
    intros [= ->]. apply Hk2. apply list_elem_of_In, in_map_iff.
    exists (k, v'). auto. }
  assert (Hvk : valid_key k = true) by exact (Hvalid _ _ Hkv).
  destruct (dedup_loop_skip k (rev (map f l2)) (kv0 :: (rev (map f l1) ++ rev (Environ w)))
              ∅ [] false ltac:(set_solver) ltac:(intros e []) HP)
    as (saw' & out' & err' & Hstep & Hk' & Hout').
  rewrite (dedup_loop_take k kv0) in Hstep
    by (exact Hk' || now apply no_nul_entry || now apply env_key_entry).
  unfold child_env, dedupEnv. rewrite Hrev, Hstep.
  destruct (dedup_loop ({[k]} ∪ saw') (out' ++ [kv0]) err' _) as [out err] eqn:E.
  cbn [fst]. split.
  - apply in_rev. rewrite rev_involutive.
    change out with (fst (out, err)). rewrite <- E. apply dedup_loop_keeps.
    apply in_app_iff. right. now left.
  - intros e He Hke. apply in_rev in He.
    change out with (fst (out, err)) in He. rewrite <- E in He.
    refine (dedup_loop_unique k kv0 _ _ _ _ _ _ e He Hke); [set_solver|].
    intros e' He' Hke'. apply in_app_iff in He' as [He'|[<-|[]]]; [|reflexivity].
    exfalso. exact (Hout' e' He' Hke').
Qed.

(** The override [FOO=bar] replaces the ambient [FOO=baz]: the child gets
    [FOO=bar] only. *)
Lemma Exec_child_env_witness :
  e_launched (Exec demo_world {[ "FOO" := "bar" ]} "ok" demo_heap demo_args)
    = Some (mkLaunch "ok" ["bar"; "a.go"; "b.go"; "*.xyz"] ["FOO=baz"; "FOO=bar"]) /\
  child_env (mkLaunch "ok" ["bar"; "a.go"; "b.go"; "*.xyz"] ["FOO=baz"; "FOO=bar"])
    = ["FOO=bar"] /\
  In ("FOO" +:+ "=" +:+ "bar")
     (child_env (mkLaunch "ok" ["bar"; "a.go"; "b.go"; "*.xyz"] ["FOO=baz"; "FOO=bar"])).
Proof.
  assert (HL : e_launched (Exec demo_world {[ "FOO" := "bar" ]} "ok" demo_heap demo_args)
               = Some (mkLaunch "ok" ["bar"; "a.go"; "b.go"; "*.xyz"] ["FOO=baz"; "FOO=bar"]))
    by reflexivity.
  split; [exact HL|]. split; [vm_compute; reflexivity|].
  refine (proj1 (Exec_child_env demo_world {[ "FOO" := "bar" ]} "ok" demo_heap demo_args
                   _ "FOO" "bar" HL _ _ _)).
  - intros k' v' H. apply lookup_singleton_Some in H as [<- _]. reflexivity.
  - apply lookup_singleton_eq.
  - reflexivity.
Defined.

(** ** The output of a failed command *)

(** X12: [OutputWith] returns what the child wrote to stdout (less one trailing
    newline) whatever its exit status and whatever error is returned along
    with it, and the empty string when nothing was started: when a glob
    pattern is malformed or the command could not be started. *)
Theorem OutputWith_output_on_failure w env cmd h args :
  (forall l ws out cerr, e_launched (Exec w env cmd h args) = Some l ->
     Start w l = Waited ws out cerr ->
     (OutputWith w env cmd h args).1.2 = TrimSuffix out newline) /\
  ((e_launched (Exec w env cmd h args) = None \/
    exists l e, e_launched (Exec w env cmd h args) = Some l /\ Start w l = StartFailed e) ->
   (OutputWith w env cmd h args).1.2 = "").
Proof.
  unfold OutputWith. cbn [fst snd]. split.
  - intros l ws out cerr HL HS.
    destruct (Exec_launched w env cmd h args l HL) as (_ & _ & _ & _ & _ & Hout).
    now rewrite Hout, HS.
  - intros [HN|(l & e & HL & HS)].
    + destruct (Exec_not_launched w env cmd h args HN) as (_ & _ & _ & Hout).
      now rewrite Hout.
    + destruct (Exec_launched w env cmd h args l HL) as (_ & _ & _ & _ & _ & Hout).
      now rewrite Hout, HS.
Qed.
